(** * go-persista: the storage package

    A shallow embedding of [internal/storage]: the in-memory map of
    [Object]s with [Put]/[Get], the janitor sweep, and the snapshot
    [save]/[load] pair with the constructor [New].

    Conventions.
    - A [time.Time] is the instant it denotes, an integer count of
      nanoseconds from the Unix epoch; [t.Before(u)] is [t < u].
      [time.Now()] is an explicit argument of every operation that reads
      the clock.
    - A Go [string] is a sequence of bytes, as is a Rocq [string]; a
      [[]byte] is a [list byte].
    - [map[string]Object] is a [gmap string Object] once it has been made;
      [Nilable] adds the nil map, which [Put] cannot write.
    - The receiver's map is threaded explicitly: an operation that may
      mutate it returns the map it leaves behind. *)

From Stdlib Require Import ZArith List Lia.
From Stdlib Require Import Strings.Byte.
From Stdlib Require Import Strings.String Strings.Ascii.
From stdpp Require Import base option list strings gmap fin_maps sorting.

Local Open Scope Z_scope.
Local Open Scope string_scope.

(** ** Data model *)

(** [time.Time], as an instant. *)
Definition Time : Type := Z.

(** [func (t Time) Before(u Time) bool]. *)
Definition Before (t u : Time) : bool := (t <? u)%Z.

(** [type Object struct { Data []byte; Expires *time.Time }]. *)
Record Object : Type := mkObject {
  Data : list byte;
  Expires : option Time
}.

#[export] Instance byte_eq_decision : EqDecision byte := Byte.byte_eq_dec.

#[export] Instance Object_eq_dec : EqDecision Object.
Proof. solve_decision. Defined.

(** The [storage] field of [Storage]. *)
Abbreviation store := (gmap string Object).

(** The test both [Get] and the janitor apply to an object:
    [obj.Expires != nil && obj.Expires.Before(time.Now())]. *)
Definition expired (now : Time) (obj : Object) : bool :=
  match Expires obj with
  | Some t => Before t now
  | None => false
  end.

(** ** Put and Get *)

(** [func (s *Storage) Put(key string, data []byte, expires *time.Time)],
    on a map that has been made; on the nil map see [Nilable.Put]. *)
Definition Put (key : string) (data : list byte) (expires : option Time)
    (s : store) : store :=
  <[key := {| Data := data; Expires := expires |}]> s.

(** [func (s *Storage) Get(key string) ([]byte, bool)]: the two results
    and the map afterwards.  The [nil] slice is the empty list. *)
Definition Get (key : string) (now : Time) (s : store)
    : (list byte * bool) * store :=
  match s !! key with
  | None => (([], false), s)
  | Some obj =>
      if expired now obj
      then (([], false), delete key s)
      else ((Data obj, true), s)
  end.

(** What the specification calls expired: the expiry is present and
    [expiresAt <= now]. *)
Definition spec_expired (now : Time) (obj : Object) : bool :=
  match Expires obj with
  | Some t => (t <=? now)%Z
  | None => false
  end.

(** ** The janitor *)

(** The body of the [range s.storage] loop for one visited entry.  Each
    iteration reads [time.Now()] afresh; [clock key] is the reading taken
    while [key] is visited. *)
Definition sweep_entry (clock : string → Time) (s : store)
    (kv : string * Object) : store :=
  if expired (clock kv.1) kv.2 then delete kv.1 s else s.

(** The whole [range] loop, visiting the entries in the order [visit].
    Go leaves the iteration order of a map unspecified. *)
Definition sweep_in_order (clock : string → Time)
    (visit : list (string * Object)) (s : store) : store :=
  foldl (sweep_entry clock) s visit.

(** One tick of the janitor: lock, range over the map, unlock. *)
Definition janitor_tick (clock : string → Time) (s : store) : store :=
  sweep_in_order clock (map_to_list s) s.

(** What the [select] of a background loop receives. *)
Inductive signal : Type :=
  | Tick (clock : string → Time)   (* [<-ticker.C] *)
  | Done.                           (* [<-ctx.Done()] *)

(** [func (s *Storage) janitor(ctx, interval)]: the [for]/[select] loop,
    driven by the signals it receives. *)
Fixpoint janitor (signals : list signal) (s : store) : store :=
  match signals with
  | [] => s
  | Done :: _ => s
  | Tick clock :: rest => janitor rest (janitor_tick clock s)
  end.

(** ** Files *)

(** A path of the file system names a regular file with its content, or
    something that can be neither opened nor created (a file without
    permission). *)
Inductive node : Type :=
  | File (content : list byte)
  | NoAccess.

Abbreviation disk := (gmap string node).

(** The outcomes of [os.Open] that [load] tells apart. *)
Inductive open_result : Type :=
  | Opened (content : list byte)
  | ErrNotExist                  (* [os.IsNotExist(err)] *)
  | ErrOther.

Definition os_Open (d : disk) (path : string) : open_result :=
  match d !! path with
  | None => ErrNotExist
  | Some (File content) => Opened content
  | Some NoAccess => ErrOther
  end.

(** [os.Create]: creates or truncates; [None] is a non-nil error. *)
Definition os_Create (d : disk) (path : string) : option disk :=
  match d !! path with
  | Some NoAccess => None
  | _ => Some (<[path := File []]> d)
  end.

(** Writing [content] to the file just created at [path]. *)
Definition write_file (d : disk) (path : string) (content : list byte)
    : disk :=
  <[path := File content]> d.

(** ** Formats and encoders *)

Definition Format : Type := string.
Definition JSONFormat : Format := "json".
Definition GobFormat : Format := "gob".

(** [fmt.Sprintf("%s.%s", name, format)]. *)
Definition Sprintf (name : string) (format : Format) : string :=
  name +:+ "." +:+ format.

(** An encoding package ([encoding/json], [encoding/gob]) as the storage
    package uses it.
    - [Encode s] is [NewEncoder(file).Encode(s)]: the bytes that reach the
      file, and whether the returned error is nil.
    - [Decode content s] is [NewDecoder(file).Decode(&s)]: it decodes into
      the map it is handed, so it yields the map it leaves behind, and
      whether the returned error is nil. *)
Record Codec : Type := mkCodec {
  Encode : store → list byte * bool;
  Decode : list byte → store → store * bool
}.

(** The errors [save] and [load] wrap. *)
Inductive error : Type :=
  | CreateFileError      (* "create file error: %w" *)
  | JSONEncodeError      (* "json encode error: %w" *)
  | GobEncodeError       (* "gob encode error: %w" *)
  | OpenGobFileError     (* "open gob file error: %w" *)
  | OpenJSONFileError    (* "open json file error: %w" *)
  | JSONDecodeError      (* "json decode error: %w" *)
  | GobDecodeError.      (* "gob decode error: %w" *)

Section Persistence.
Context (json gob : Codec).

(** [func (s *Storage) save(name string, format Format) (int, error)]:
    the two results and the file system afterwards. *)
Definition save (name : string) (format : Format) (s : store) (d : disk)
    : (nat * option error) * disk :=
  let path := Sprintf name format in
  match os_Create d path with
  | None => ((0%nat, Some CreateFileError), d)
  | Some d1 =>
      if decide (format = JSONFormat) then
        let '(content, ok) := Encode json s in
        if ok then ((size s, None), write_file d1 path content)
        else ((0%nat, Some JSONEncodeError), write_file d1 path content)
      else if decide (format = GobFormat) then
        let '(content, ok) := Encode gob s in
        if ok then ((size s, None), write_file d1 path content)
        else ((0%nat, Some GobEncodeError), write_file d1 path content)
      else ((size s, None), d1)
  end.

(** The [switch format] at the end of [load], on the opened file. *)
Definition load_decode (format : Format) (content : list byte) (s : store)
    : (nat * option error) * store :=
  if decide (format = JSONFormat) then
    let '(s', ok) := Decode json content s in
    if ok then ((size s', None), s')
    else ((0%nat, Some JSONDecodeError), s')
  else if decide (format = GobFormat) then
    let '(s', ok) := Decode gob content s in
    if ok then ((size s', None), s')
    else ((0%nat, Some GobDecodeError), s')
  else ((size s, None), s).

(** [func (s *Storage) load(name string) (int, error)]: the two results
    and the map afterwards. *)
Definition load (name : string) (s : store) (d : disk)
    : (nat * option error) * store :=
  match os_Open d (Sprintf name GobFormat) with
  | Opened content => load_decode GobFormat content s
  | ErrOther => ((0%nat, Some OpenGobFileError), s)
  | ErrNotExist =>
      match os_Open d (Sprintf name JSONFormat) with
      | Opened content => load_decode JSONFormat content s
      | ErrOther => ((0%nat, Some OpenJSONFileError), s)
      | ErrNotExist => ((0%nat, None), s)
      end
  end.
End Persistence.

(** ** Options and the constructor *)

(** [time.Duration], in nanoseconds. *)
Definition Duration : Type := Z.
Definition Second : Duration := 1000000000%Z.

(** [type Janitor struct { Interval time.Duration }]. *)
Record Janitor : Type := mkJanitor {
  JInterval : Duration
}.

(** [type Persistent struct { Format; Interval; Name }]. *)
Record Persistent : Type := mkPersistent {
  PFormat : Format;
  PInterval : Duration;
  PName : string
}.

(** [type options struct { janitor *Janitor; persistent *Persistent }]. *)
Record options : Type := mkOptions {
  opt_janitor : option Janitor;
  opt_persistent : option Persistent
}.

(** [type Option func(options *options)]. *)
Definition Option : Type := options → options.

(** [func WithPersistent(persistent Persistent) Option]. *)
Definition WithPersistent (persistent : Persistent) : Option :=
  fun o =>
    let format :=
      if decide (PFormat persistent = "") then GobFormat
      else PFormat persistent in
    let interval :=
      if decide (PInterval persistent = 0%Z) then (15 * Second)%Z
      else PInterval persistent in
    let name :=
      if decide (PName persistent = "") then "go-persista"
      else PName persistent in
    {| opt_janitor := opt_janitor o;
       opt_persistent :=
         Some {| PFormat := format; PInterval := interval; PName := name |} |}.

(** The configuration [WithPersistent] stores: the one it was given, its
    zero fields replaced by the defaults. *)
Definition with_defaults (p : Persistent) : Persistent :=
  {| PFormat := if decide (PFormat p = "") then GobFormat else PFormat p;
     PInterval :=
       if decide (PInterval p = 0%Z) then (15 * Second)%Z else PInterval p;
     PName := if decide (PName p = "") then "go-persista" else PName p |}.

(** [func WithJanitor(janitor Janitor) Option]. *)
Definition WithJanitor (j : Janitor) : Option :=
  fun o =>
    let interval :=
      if decide (JInterval j = 0%Z) then (15 * Second)%Z else JInterval j in
    {| opt_janitor := Some {| JInterval := interval |};
       opt_persistent := opt_persistent o |}.

(** The goroutines [New] starts. *)
Inductive task : Type :=
  | JanitorTask (interval : Duration)   (* [go st.janitor(ctx, interval)] *)
  | SaverTask (p : Persistent).         (* [go st.saver(ctx, p)] *)

(** The lines [New] logs. *)
Inductive log_line : Type :=
  | LogJanitorEnabled
  | LogLoadError (e : error)
  | LogLoaded (cnt : nat) (name : string)
  | LogPersistentEnabled (p : Persistent).

(** What a call of [New] leaves: the map of the returned [*Storage], the
    goroutines started and the lines logged. *)
Record created : Type := mkCreated {
  storage : store;
  started : list task;
  logged : list log_line
}.

Section Constructor.
Context (json gob : Codec).

(** [func New(ctx context.Context, opts ...Option) *Storage], on the
    file system [d]. *)
Definition New (d : disk) (opts : list Option) : created :=
  let o :=
    foldl (fun o opt => opt o)
      {| opt_janitor := None; opt_persistent := None |} opts in
  let st0 : store := ∅ in
  let after_janitor :=
    match opt_janitor o with
    | Some j =>
        {| storage := st0;
           started := [JanitorTask (JInterval j)];
           logged := [LogJanitorEnabled] |}
    | None => {| storage := st0; started := []; logged := [] |}
    end in
  match opt_persistent o with
  | Some p =>
      let '((cnt, err), st1) := load json gob (PName p) st0 d in
      let line :=
        match err with
        | Some e => LogLoadError e
        | None => LogLoaded cnt (PName p)
        end in
      {| storage := st1;
         started := (started after_janitor ++ [SaverTask p])%list;
         logged :=
           (logged after_janitor ++ [line; LogPersistentEnabled p])%list |}
  | None => after_janitor
  end.
End Constructor.

(** ** Get, step by step, under the read-write mutex

    [Get] as the sequence of its statements, each an atomic step of a
    goroutine, with the state of [s.mu] explicit.  Goroutines are
    interleaved by a schedule. *)
Module Race.

(** The state of a [sync.RWMutex]: how many goroutines hold it shared,
    and whether one holds it exclusively. *)
Record RWMutex : Type := mkRWMutex {
  readers : nat;
  writer : bool
}.

(** Where a goroutine running [Get] stands. *)
Inductive pc : Type :=
  | AtRLock                          (* [s.mu.RLock()] *)
  | AtLookup                         (* [obj, ok := s.storage[key]] *)
  | AtExpiry (obj : Object)          (* [if obj.Expires != nil && ...] *)
  | AtDelete                         (* [delete(s.storage, key)] *)
  | AtRUnlock (res : list byte * bool)   (* deferred [s.mu.RUnlock()] *)
  | Returned (res : list byte * bool).

(** A goroutine calling [Get(key)]; [now] is what its [time.Now()]
    reads. *)
Record goroutine : Type := mkGoroutine {
  key : string;
  now : Time;
  at_pc : pc
}.

(** A write of the map: which goroutine did it and how the mutex was
    held at that instant. *)
Record map_write : Type := mkWrite {
  by_goroutine : nat;
  held : RWMutex
}.

Record world : Type := mkWorld {
  mem : store;
  mu : RWMutex;
  goroutines : list goroutine;
  writes : list map_write
}.

Definition set_pc (g : goroutine) (p : pc) : goroutine :=
  {| key := key g; now := now g; at_pc := p |}.

(** One step of goroutine [i]; [None] when it is blocked, has returned,
    or does not exist. *)
Definition step (i : nat) (w : world) : option world :=
  match goroutines w !! i with
  | None => None
  | Some g =>
      let continue_at p m l ws :=
        Some {| mem := m; mu := l;
                goroutines := <[i := set_pc g p]> (goroutines w);
                writes := ws |} in
      match at_pc g with
      | AtRLock =>
          if writer (mu w) then None
          else continue_at AtLookup (mem w)
                 {| readers := S (readers (mu w)); writer := false |}
                 (writes w)
      | AtLookup =>
          match mem w !! key g with
          | None => continue_at (AtRUnlock ([], false)) (mem w) (mu w) (writes w)
          | Some obj => continue_at (AtExpiry obj) (mem w) (mu w) (writes w)
          end
      | AtExpiry obj =>
          if expired (now g) obj
          then continue_at AtDelete (mem w) (mu w) (writes w)
          else continue_at (AtRUnlock (Data obj, true)) (mem w) (mu w) (writes w)
      | AtDelete =>
          continue_at (AtRUnlock ([], false)) (delete (key g) (mem w)) (mu w)
            (writes w ++ [{| by_goroutine := i; held := mu w |}])%list
      | AtRUnlock res =>
          continue_at (Returned res) (mem w)
            {| readers := pred (readers (mu w)); writer := writer (mu w) |}
            (writes w)
      | Returned _ => None
      end
  end.

(** Run the goroutines in the order the schedule gives. *)
Fixpoint run (schedule : list nat) (w : world) : option world :=
  match schedule with
  | [] => Some w
  | i :: rest =>
      match step i w with
      | Some w' => run rest w'
      | None => None
      end
  end.

(** [n] goroutines about to call [Get(k)] on the map [s], the mutex
    free. *)
Definition calls (n : nat) (k : string) (t : Time) (s : store) : world :=
  {| mem := s;
     mu := {| readers := 0; writer := false |};
     goroutines := replicate n {| key := k; now := t; at_pc := AtRLock |};
     writes := [] |}.

(** The discipline for a mutation of the map: the mutex is held
    exclusively. *)
Definition exclusive (l : RWMutex) : bool :=
  writer l && Nat.eqb (readers l) 0.

(** The mutex is not held exclusively, and was not at any write of the
    map so far. *)
Definition shared_only (w : world) : Prop :=
  writer (mu w) = false
  ∧ Forall (λ x, writer (held x) = false) (writes w).

End Race.

(** ** A reference encoding

    The encoders are parameters of [save] and [load].  [Wire.codec] is a
    concrete one, used to run them: a snapshot is the sequence of its
    entries, each self-delimiting.  Like a streaming decoder it stores
    every entry into the target map as soon as it has read it. *)
Module Wire.

(** A byte sequence: each byte behind a [x01] marker, closed by [x00]. *)
Fixpoint put_bytes (l : list byte) : list byte :=
  match l with
  | [] => [x00]
  | b :: rest => x01 :: b :: put_bytes rest
  end.

Fixpoint take_bytes (bs : list byte) : option (list byte * list byte) :=
  match bs with
  | x00 :: rest => Some ([], rest)
  | x01 :: b :: rest =>
      match take_bytes rest with
      | Some (l, rest') => Some (b :: l, rest')
      | None => None
      end
  | _ => None
  end.

(** The binary digits of a positive number below its leading one, least
    significant first. *)
Fixpoint pos_bits (p : positive) : list byte :=
  match p with
  | xH => []
  | xO q => x00 :: pos_bits q
  | xI q => x01 :: pos_bits q
  end.

Fixpoint bits_pos (l : list byte) : option positive :=
  match l with
  | [] => Some xH
  | b :: rest =>
      match bits_pos rest with
      | None => None
      | Some q =>
          if Byte.eqb b x00 then Some (xO q)
          else if Byte.eqb b x01 then Some (xI q)
          else None
      end
  end.

(** An instant: a sign byte, then the digits of its magnitude. *)
Definition put_Z (z : Z) : list byte :=
  match z with
  | Z0 => [x00]
  | Zpos p => x01 :: put_bytes (pos_bits p)
  | Zneg p => x02 :: put_bytes (pos_bits p)
  end.

Definition take_Z (bs : list byte) : option (Z * list byte) :=
  match bs with
  | x00 :: rest => Some (0%Z, rest)
  | x01 :: rest =>
      '(l, rest') ← take_bytes rest;
      p ← bits_pos l;
      Some (Zpos p, rest')
  | x02 :: rest =>
      '(l, rest') ← take_bytes rest;
      p ← bits_pos l;
      Some (Zneg p, rest')
  | _ => None
  end.

(** The optional expiry: [x00] for nil, [x01] and the instant. *)
Definition put_expires (e : option Time) : list byte :=
  match e with
  | None => [x00]
  | Some t => x01 :: put_Z t
  end.

Definition take_expires (bs : list byte)
    : option (option Time * list byte) :=
  match bs with
  | x00 :: rest => Some (None, rest)
  | x01 :: rest => '(t, rest') ← take_Z rest; Some (Some t, rest')
  | _ => None
  end.

(** One entry: key, data, expiry. *)
Definition put_entry (kv : string * Object) : list byte :=
  (put_bytes (list_byte_of_string kv.1)
     ++ put_bytes (Data kv.2)
     ++ put_expires (Expires kv.2))%list.

Definition take_entry (bs : list byte)
    : option ((string * Object) * list byte) :=
  '(k, r1) ← take_bytes bs;
  '(data, r2) ← take_bytes r1;
  '(e, r3) ← take_expires r2;
  Some ((string_of_list_byte k, {| Data := data; Expires := e |}), r3).

Definition put_entries (l : list (string * Object)) : list byte :=
  concat (map put_entry l).

Definition encode (s : store) : list byte * bool :=
  (put_entries (map_to_list s), true).

(** Entries are stored one by one; a malformed entry stops the decoder
    with an error, the entries before it already in the map. *)
Fixpoint decode_from (fuel : nat) (bs : list byte) (s : store)
    : store * bool :=
  match bs with
  | [] => (s, true)
  | _ :: _ =>
      match fuel with
      | O => (s, false)
      | S fuel' =>
          match take_entry bs with
          | None => (s, false)
          | Some ((k, obj), rest) => decode_from fuel' rest (<[k := obj]> s)
          end
      end
  end.

Definition decode (bs : list byte) (s : store) : store * bool :=
  decode_from (length bs) bs s.

Definition codec : Codec := {| Encode := encode; Decode := decode |}.

End Wire.

(** ** The saver *)

(** What the [select] of the saver receives, with the content of the map
    at that moment: [save] reads the map the store then holds. *)
Inductive wakeup : Type :=
  | TickAt (s : store)    (* [<-ticker.C] *)
  | DoneAt (s : store).   (* [<-ctx.Done()] *)

(** The lines the saver logs. *)
Inductive saver_line : Type :=
  | LogTrynaSave                           (* "tryna save your storage ..." *)
  | LogSaveOnExitError (e : error)         (* "save on exit error: %v" *)
  | LogSavedOnExit (cnt : nat) (name : string)   (* "saved %d objects to %s" *)
  | LogSaveError (e : error)               (* "save error: %v" *)
  | LogSaved (cnt : nat) (name : string).  (* "saved %d objects to %s" *)

Section Saver.
Context (json gob : Codec).

(** [func (s *Storage) saver(ctx context.Context, p Persistent)]: the
    [for]/[select] loop, driven by the wakeups it receives; the file
    system it leaves and the lines it logs. *)
Fixpoint saver (p : Persistent) (wakeups : list wakeup) (d : disk)
    : disk * list saver_line :=
  match wakeups with
  | [] => (d, [])
  | DoneAt s :: _ =>
      let '((cnt, err), d') := save json gob (PName p) (PFormat p) s d in
      (d', [LogTrynaSave;
            match err with
            | Some e => LogSaveOnExitError e
            | None => LogSavedOnExit cnt (PName p)
            end])
  | TickAt s :: rest =>
      let '((cnt, err), d') := save json gob (PName p) (PFormat p) s d in
      let '(d'', lines) := saver p rest d' in
      (d'',
       match err with
       | Some e => LogSaveError e
       | None => LogSaved cnt (PName p)
       end :: lines)
  end.
End Saver.

(** ** The options of the command

    [cmd/main.go] builds its store with
    [storage.WithPersistent(storage.Persistent{Format: storage.JSONFormat,
    Interval: 15 * time.Second})]. *)
Definition main_options : list Option :=
  [WithPersistent
     {| PFormat := JSONFormat; PInterval := (15 * Second)%Z; PName := "" |}].

(** ** The request handlers of [internal/server] *)
Module Server.

(** [strings.TrimPrefix(s, prefix)]: [s] without the leading [prefix], or
    [s] itself when it does not start with it. *)
Fixpoint strip_prefix (prefix s : string) : option string :=
  match prefix with
  | EmptyString => Some s
  | String a prefix' =>
      match s with
      | EmptyString => None
      | String b s' =>
          if Ascii.eqb a b then strip_prefix prefix' s' else None
      end
  end.

Definition TrimPrefix (s prefix : string) : string :=
  match strip_prefix prefix s with
  | Some rest => rest
  | None => s
  end.

Definition ExpiresHeader : string := "Expires".

(** The parts of an [*http.Request] the handlers read: [r.Method],
    [r.URL.Path], [r.Header.Get] (the empty string for a header that is
    not there) and what [io.ReadAll(r.Body)] returns ([None] for an
    error). *)
Record Request : Type := mkRequest {
  Method : string;
  Path : string;
  Header : string → string;
  Body : option (list byte)
}.

(** What a handler writes to its [http.ResponseWriter]: the status, the
    Content-Type it sets, if any, and the body. *)
Record Response : Type := mkResponse {
  StatusCode : nat;
  ContentType : option string;
  Written : list byte
}.

Definition StatusOK : nat := 200.
Definition StatusBadRequest : nat := 400.
Definition StatusNotFound : nat := 404.
Definition StatusMethodNotAllowed : nat := 405.

(** [http.Error(w, msg, code)]: a plain-text reply, the message and a
    newline. *)
Definition http_Error (msg : string) (code : nat) : Response :=
  {| StatusCode := code;
     ContentType := Some "text/plain; charset=utf-8";
     Written := list_byte_of_string (msg +:+ String "010"%char EmptyString) |}.

(** The two counters of [internal/metrics] the handlers increment. *)
Record Counters : Type := mkCounters {
  put_objects_total : nat;
  get_objects_total : nat
}.

(** [func (s *Server) getObjectHandler(w, _, key)], at clock reading
    [now]. *)
Definition getObjectHandler (key : string) (now : Time) (s : store)
    : Response * store :=
  let '((data, ok), s') := Get key now s in
  if ok
  then ({| StatusCode := StatusOK;
           ContentType := Some "application/json";
           Written := data |}, s')
  else (http_Error "Object not found" StatusNotFound, s').

Section Handlers.
(** [time.Parse(time.RFC3339, value)]; [None] for a non-nil error. *)
Context (Parse : string → option Time).

(** [func (s *Server) putObjectHandler(w, r, key)]. *)
Definition putObjectHandler (r : Request) (key : string) (s : store)
    : Response * store :=
  let store_body (expires : option Time) :=
    match Body r with
    | None => (http_Error "Invalid body" StatusBadRequest, s)
    | Some data =>
        ({| StatusCode := StatusOK; ContentType := None; Written := [] |},
         Put key data expires s)
    end in
  if decide (Header r ExpiresHeader = "") then store_body None
  else
    match Parse (Header r ExpiresHeader) with
    | None => (http_Error "Invalid expires header" StatusBadRequest, s)
    | Some exp => store_body (Some exp)
    end.

(** [func (s *Server) HandleObject(w, r)], at clock reading [now]: the
    reply, the map and the counters afterwards. *)
Definition HandleObject (now : Time) (r : Request) (s : store)
    (m : Counters) : Response * (store * Counters) :=
  let key := TrimPrefix (Path r) "/objects/" in
  if decide (key = "") then
    (http_Error "Key is required" StatusBadRequest, (s, m))
  else if decide (Method r = "GET") then
    let m' := {| put_objects_total := put_objects_total m;
                 get_objects_total := S (get_objects_total m) |} in
    let '(resp, s') := getObjectHandler key now s in
    (resp, (s', m'))
  else if decide (Method r = "PUT") then
    let m' := {| put_objects_total := S (put_objects_total m);
                 get_objects_total := get_objects_total m |} in
    let '(resp, s') := putObjectHandler r key s in
    (resp, (s', m'))
  else (http_Error "Unsupported method" StatusMethodNotAllowed, (s, m)).
End Handlers.

(** A [GET] or [PUT] request for the object [key], as a client builds
    it. *)
Definition object_request (method key expires : string)
    (body : option (list byte)) : Request :=
  {| Method := method;
     Path := "/objects/" +:+ key;
     Header := fun h => if decide (h = ExpiresHeader) then expires else "";
     Body := body |}.

End Server.

(** ** The map as a Go value: nil or made

    A [map[string]Object] is either nil or has been made.  Reading a nil
    map finds nothing, its length is zero and deleting from it does
    nothing, but assigning to an entry of it is a run-time panic.  [New]
    makes the map; a decoder is handed its address and may leave any map
    there, the nil one included.  The operations above describe a store
    whose map has been made; here they are again on the map as a Go
    value. *)
Module Nilable.

Inductive gomap : Type :=
  | NilMap
  | MadeMap (m : store).

(** The entries a map value holds. *)
Definition entries (g : gomap) : store :=
  match g with
  | NilMap => ∅
  | MadeMap m => m
  end.

(** [len(s.storage)]. *)
Definition len (g : gomap) : nat := size (entries g).

(** [func (s *Storage) Put(key, data, expires)]; [None] is the panic
    "assignment to entry in nil map". *)
Definition Put (key : string) (data : list byte) (expires : option Time)
    (g : gomap) : option gomap :=
  match g with
  | NilMap => None
  | MadeMap m => Some (MadeMap (Put key data expires m))
  end.

(** [func (s *Storage) Get(key string) ([]byte, bool)]. *)
Definition Get (key : string) (now : Time) (g : gomap)
    : (list byte * bool) * gomap :=
  match g with
  | NilMap => (([], false), NilMap)
  | MadeMap m => let '(res, m') := Get key now m in (res, MadeMap m')
  end.

(** An encoding package, on map values: [Encode g] is
    [NewEncoder(file).Encode(s.storage)], [Decode content g] is
    [NewDecoder(file).Decode(&s.storage)] with [g] the map found there. *)
Record Codec : Type := mkCodec {
  Encode : gomap → list byte * bool;
  Decode : list byte → gomap → gomap * bool
}.

Section Persistence.
Context (json gob : Codec).

(** [func (s *Storage) save(name string, format Format) (int, error)]. *)
Definition save (name : string) (format : Format) (g : gomap) (d : disk)
    : (nat * option error) * disk :=
  let path := Sprintf name format in
  match os_Create d path with
  | None => ((0%nat, Some CreateFileError), d)
  | Some d1 =>
      if decide (format = JSONFormat) then
        let '(content, ok) := Encode json g in
        if ok then ((len g, None), write_file d1 path content)
        else ((0%nat, Some JSONEncodeError), write_file d1 path content)
      else if decide (format = GobFormat) then
        let '(content, ok) := Encode gob g in
        if ok then ((len g, None), write_file d1 path content)
        else ((0%nat, Some GobEncodeError), write_file d1 path content)
      else ((len g, None), d1)
  end.

(** The [switch format] at the end of [load], on the opened file. *)
Definition load_decode (format : Format) (content : list byte) (g : gomap)
    : (nat * option error) * gomap :=
  if decide (format = JSONFormat) then
    let '(g', ok) := Decode json content g in
    if ok then ((len g', None), g')
    else ((0%nat, Some JSONDecodeError), g')
  else if decide (format = GobFormat) then
    let '(g', ok) := Decode gob content g in
    if ok then ((len g', None), g')
    else ((0%nat, Some GobDecodeError), g')
  else ((len g, None), g).

(** [func (s *Storage) load(name string) (int, error)]. *)
Definition load (name : string) (g : gomap) (d : disk)
    : (nat * option error) * gomap :=
  match os_Open d (Sprintf name GobFormat) with
  | Opened content => load_decode GobFormat content g
  | ErrOther => ((0%nat, Some OpenGobFileError), g)
  | ErrNotExist =>
      match os_Open d (Sprintf name JSONFormat) with
      | Opened content => load_decode JSONFormat content g
      | ErrOther => ((0%nat, Some OpenJSONFileError), g)
      | ErrNotExist => ((0%nat, None), g)
      end
  end.
End Persistence.

(** What a call of [New] leaves, the map of the returned [*Storage] as a
    Go value. *)
Record created : Type := mkCreated {
  storage : gomap;
  started : list task;
  logged : list log_line
}.

Section Constructor.
Context (json gob : Codec).

(** [func New(ctx context.Context, opts ...Option) *Storage]; the map
    starts as [make(map[string]Object)]. *)
Definition New (d : disk) (opts : list Option) : created :=
  let o :=
    foldl (fun o opt => opt o)
      {| opt_janitor := None; opt_persistent := None |} opts in
  let st0 : gomap := MadeMap ∅ in
  let after_janitor :=
    match opt_janitor o with
    | Some j =>
        {| storage := st0;
           started := [JanitorTask (JInterval j)];
           logged := [LogJanitorEnabled] |}
    | None => {| storage := st0; started := []; logged := [] |}
    end in
  match opt_persistent o with
  | Some p =>
      let '((cnt, err), st1) := load json gob (PName p) st0 d in
      let line :=
        match err with
        | Some e => LogLoadError e
        | None => LogLoaded cnt (PName p)
        end in
      {| storage := st1;
         started := (started after_janitor ++ [SaverTask p])%list;
         logged :=
           (logged after_janitor ++ [line; LogPersistentEnabled p])%list |}
  | None => after_janitor
  end.
End Constructor.

(** What a handler leaves on its [http.ResponseWriter]: a reply, or
    nothing because it panicked before writing one. *)
Inductive reply : Type :=
  | Answered (resp : Server.Response)
  | Panicked.

(** [func (s *Server) getObjectHandler(w, _, key)]. *)
Definition getObjectHandler (key : string) (now : Time) (g : gomap)
    : reply * gomap :=
  let '((data, ok), g') := Get key now g in
  if ok
  then (Answered {| Server.StatusCode := Server.StatusOK;
                    Server.ContentType := Some "application/json";
                    Server.Written := data |}, g')
  else (Answered (Server.http_Error "Object not found" Server.StatusNotFound),
        g').

Section Handlers.
Context (Parse : string → option Time).

(** [func (s *Server) putObjectHandler(w, r, key)]: [s.Storage.Put] runs
    before [w.WriteHeader(http.StatusOK)]. *)
Definition putObjectHandler (r : Server.Request) (key : string) (g : gomap)
    : reply * gomap :=
  let store_body (expires : option Time) :=
    match Server.Body r with
    | None =>
        (Answered (Server.http_Error "Invalid body" Server.StatusBadRequest),
         g)
    | Some data =>
        match Put key data expires g with
        | None => (Panicked, g)
        | Some g' =>
            (Answered {| Server.StatusCode := Server.StatusOK;
                         Server.ContentType := None;
                         Server.Written := [] |}, g')
        end
    end in
  if decide (Server.Header r Server.ExpiresHeader = "") then store_body None
  else
    match Parse (Server.Header r Server.ExpiresHeader) with
    | None =>
        (Answered
           (Server.http_Error "Invalid expires header"
              Server.StatusBadRequest), g)
    | Some exp => store_body (Some exp)
    end.

(** [func (s *Server) HandleObject(w, r)]. *)
Definition HandleObject (now : Time) (r : Server.Request) (g : gomap)
    (m : Server.Counters) : reply * (gomap * Server.Counters) :=
  let key := Server.TrimPrefix (Server.Path r) "/objects/" in
  if decide (key = "") then
    (Answered (Server.http_Error "Key is required" Server.StatusBadRequest),
     (g, m))
  else if decide (Server.Method r = "GET") then
    let m' :=
      {| Server.put_objects_total := Server.put_objects_total m;
         Server.get_objects_total := S (Server.get_objects_total m) |} in
    let '(rep, g') := getObjectHandler key now g in
    (rep, (g', m'))
  else if decide (Server.Method r = "PUT") then
    let m' :=
      {| Server.put_objects_total := S (Server.put_objects_total m);
         Server.get_objects_total := Server.get_objects_total m |} in
    let '(rep, g') := putObjectHandler r key g in
    (rep, (g', m'))
  else
    (Answered
       (Server.http_Error "Unsupported method" Server.StatusMethodNotAllowed),
     (g, m)).
End Handlers.

End Nilable.

(** ** The two encoding packages

    [encoding/json] and [encoding/gob] are not part of the repository.
    The two modules below describe, from the packages' documentation and
    code, what each does to a [map[string]Object] handed to its encoder
    and what its decoder leaves in the map it is handed.  The bytes they
    write are those of the reference encoding behind a one-byte header,
    not JSON text or a gob stream: nothing in the storage package looks
    into the bytes. *)
Module EncodingJSON.

Definition byte_in (lo hi : N) (a : ascii) : bool :=
  ((lo <=? N_of_ascii a)%N && (N_of_ascii a <=? hi)%N)%bool.

(** [n] continuation bytes, [0x80]-[0xBF] each. *)
Fixpoint continuation (n : nat) (s : string) : bool :=
  match n with
  | O => true
  | S n' =>
      match s with
      | String b rest => (byte_in 128 191 b && continuation n' rest)%bool
      | EmptyString => false
      end
  end.

(** A second byte in [lo]-[hi], then [n] continuation bytes. *)
Definition tail_ok (lo hi : N) (n : nat) (s : string) : bool :=
  match s with
  | String b rest => (byte_in lo hi b && continuation n rest)%bool
  | EmptyString => false
  end.

(** [utf8.DecodeRuneInString]: the width of the rune encoded at the head
    of the string, or [None] where it returns [RuneError] with width 1
    (a byte that starts no well-formed encoding). *)
Definition rune_width (a : ascii) (rest : string) : option nat :=
  if byte_in 0 127 a then Some 1%nat
  else if byte_in 194 223 a then
    if tail_ok 128 191 0 rest then Some 2%nat else None
  else if byte_in 224 224 a then
    if tail_ok 160 191 1 rest then Some 3%nat else None
  else if (byte_in 225 236 a || byte_in 238 239 a)%bool then
    if tail_ok 128 191 1 rest then Some 3%nat else None
  else if byte_in 237 237 a then
    if tail_ok 128 159 1 rest then Some 3%nat else None
  else if byte_in 240 240 a then
    if tail_ok 144 191 2 rest then Some 4%nat else None
  else if byte_in 241 243 a then
    if tail_ok 128 191 2 rest then Some 4%nat else None
  else if byte_in 244 244 a then
    if tail_ok 128 143 2 rest then Some 4%nat else None
  else None.

(** U+FFFD, the replacement character, in UTF-8. *)
Definition replacement : string :=
  String (ascii_of_N 239) (String (ascii_of_N 191)
    (String (ascii_of_N 189) EmptyString)).

(** The string an encoded JSON string decodes to: the encoder writes every
    well-formed rune as it is and replaces each byte that starts none by
    U+FFFD.  [skip] counts the bytes still to copy of the rune being
    written. *)
Fixpoint coerce_from (skip : nat) (s : string) : string :=
  match s with
  | EmptyString => EmptyString
  | String a rest =>
      match skip with
      | S k => String a (coerce_from k rest)
      | O =>
          match rune_width a rest with
          | Some w => String a (coerce_from (pred w) rest)
          | None => replacement +:+ coerce_from 0 rest
          end
      end
  end.

Definition coerce_utf8 (s : string) : string := coerce_from 0 s.

(** [Time.MarshalJSON] fails for a year outside 0-9999; instants are
    counted in nanoseconds from the Unix epoch, in UTC. *)
Definition year_0 : Time := (-62167219200 * 1000000000)%Z.
Definition year_10000 : Time := (253402300800 * 1000000000)%Z.

Definition marshals (obj : Object) : bool :=
  match Expires obj with
  | Some t => ((year_0 <=? t)%Z && (t <? year_10000)%Z)%bool
  | None => true
  end.

(** The entries in the order the encoder writes them: sorted by key. *)
Definition sorted_entries (m : store) : list (string * Object) :=
  merge_sort (λ a b : string * Object, Is_true (String.leb a.1 b.1))
    (map_to_list m).

Definition null_document : list byte := list_byte_of_string "null".

(** [json.NewEncoder(file).Encode(s.storage)]: the nil map is written as
    [null] and a newline; a made map as its entries sorted by key, each
    key coerced to valid UTF-8.  The value is marshalled in full before
    anything is written, so on an error the file receives nothing. *)
Definition encode (g : Nilable.gomap) : list byte * bool :=
  match g with
  | Nilable.NilMap => ((null_document ++ [x0a])%list, true)
  | Nilable.MadeMap m =>
      if forallb (λ kv : string * Object, marshals kv.2) (map_to_list m)
      then (x7b :: Wire.put_entries
                     (map (λ kv : string * Object, (coerce_utf8 kv.1, kv.2))
                        (sorted_entries m)),
            true)
      else ([], false)
  end.

(** [json.NewDecoder(file).Decode(&s.storage)]: [null] sets the map to
    nil, with no error; otherwise the entries read are stored into the map
    found there, made first if it was nil, one by one, so that an entry
    that does not decode leaves those before it in the map; a document
    that is no JSON value at all leaves the map untouched. *)
Definition decode (content : list byte) (g : Nilable.gomap)
    : Nilable.gomap * bool :=
  if decide (content = null_document
             ∨ content = (null_document ++ [x0a])%list)
  then (Nilable.NilMap, true)
  else
    match content with
    | x7b :: rest =>
        let '(m', ok) := Wire.decode rest (Nilable.entries g) in
        (Nilable.MadeMap m', ok)
    | _ => (g, false)
    end.

Definition codec : Nilable.Codec :=
  {| Nilable.Encode := encode; Nilable.Decode := decode |}.

End EncodingJSON.

Module EncodingGob.

(** [gob.NewEncoder(file).Encode(s.storage)]: the entries of the map, keys
    and data byte for byte, expiries to the nanosecond; a nil map is sent
    as a map of no entries. *)
Definition encode (g : Nilable.gomap) : list byte * bool :=
  (x67 :: Wire.put_entries (map_to_list (Nilable.entries g)), true).

(** [gob.NewDecoder(file).Decode(&s.storage)]: the entries read are stored
    into the map found there, made first if it was nil, one by one; a
    stream that does not start as one leaves the map untouched. *)
Definition decode (content : list byte) (g : Nilable.gomap)
    : Nilable.gomap * bool :=
  match content with
  | x67 :: rest =>
      let '(m', ok) := Wire.decode rest (Nilable.entries g) in
      (Nilable.MadeMap m', ok)
  | _ => (g, false)
  end.

Definition codec : Nilable.Codec :=
  {| Nilable.Encode := encode; Nilable.Decode := decode |}.

End EncodingGob.

(** * Properties *)

(** ** Expiry *)

Lemma expired_iff (now : Time) (obj : Object) :
  expired now obj = true ↔ ∃ t, Expires obj = Some t ∧ (t < now)%Z.
Proof.
  unfold expired, Before. destruct (Expires obj) as [t|].
  - rewrite Z.ltb_lt. split.
    + intros Hlt. exists t. auto.
    + intros (t' & Heq & Hlt). congruence.
  - split; [discriminate|]. intros (t & Heq & _). discriminate.
Qed.

Lemma not_expired_iff (now : Time) (obj : Object) :
  expired now obj = false ↔
  Expires obj = None ∨ ∃ t, Expires obj = Some t ∧ (now ≤ t)%Z.
Proof.
  unfold expired, Before. destruct (Expires obj) as [t|].
  - rewrite Z.ltb_ge. split.
    + intros Hle. right. exists t. auto.
    + intros [Hnone | (t' & Heq & Hle)]; [discriminate | congruence].
  - split; auto.
Qed.

(** ** Get *)

Lemma Get_absent (key : string) (now : Time) (s : store) :
  s !! key = None → Get key now s = (([], false), s).
Proof. intros Hk. unfold Get. by rewrite Hk. Qed.

Lemma Get_live (key : string) (now : Time) (s : store) (obj : Object) :
  s !! key = Some obj → expired now obj = false →
  Get key now s = ((Data obj, true), s).
Proof. intros Hk He. unfold Get. by rewrite Hk, He. Qed.

Lemma Get_expired (key : string) (now : Time) (s : store) (obj : Object) :
  s !! key = Some obj → expired now obj = true →
  Get key now s = (([], false), delete key s).
Proof. intros Hk He. unfold Get. by rewrite Hk, He. Qed.

(** C1, as stated, fails at the instant of expiry: an entry whose
    [Expires] equals the clock reading is expired in the specification's
    sense ([expiresAt <= now]), yet [Get] returns its value and leaves it
    in the map, because [Before] is strict. *)
Lemma Get_at_expiry_instant :
  let obj := {| Data := [x01]; Expires := Some 5%Z |} in
  let s : store := Put "k" [x01] (Some 5%Z) ∅ in
  s !! "k" = Some obj
  ∧ spec_expired 5 obj = true
  ∧ Get "k" 5 s = (([x01], true), s)
  ∧ (Get "k" 5 s).1 ≠ ([], false)
  ∧ (Get "k" 5 s).2 !! "k" = Some obj.
Proof. repeat split. discriminate. Qed.

(** C1, amended: [Get] returns not-found and leaves the map alone when the
    key is absent; returns the stored value and leaves the map alone when
    the key is present with no expiry or with [now <= expiresAt]; and when
    the key is present with [expiresAt < now] it returns not-found and
    deletes the entry, so the key is absent afterwards. *)
Theorem Get_lazy_expiry (key : string) (now : Time) (s : store) :
  (s !! key = None →
     Get key now s = (([], false), s))
  ∧ (∀ obj, s !! key = Some obj →
       Expires obj = None ∨ (∃ t, Expires obj = Some t ∧ (now ≤ t)%Z) →
       Get key now s = ((Data obj, true), s))
  ∧ (∀ obj t, s !! key = Some obj →
       Expires obj = Some t → (t < now)%Z →
       (Get key now s).1 = ([], false)
       ∧ (Get key now s).2 = delete key s
       ∧ (Get key now s).2 !! key = None).
Proof.
  split; [apply Get_absent|]. split.
  - intros obj Hk Hlive. apply Get_live; [done|].
    by apply not_expired_iff.
  - intros obj t Hk Ht Hlt.
    assert (expired now obj = true) as He.
    { apply expired_iff. eauto. }
    rewrite (Get_expired _ _ _ _ Hk He). simpl.
    split; [done|]. split; [done|]. apply lookup_delete_eq.
Qed.

Lemma Get_lazy_expiry_witness :
  let live := {| Data := [x01]; Expires := Some 9%Z |} in
  let stale := {| Data := [x02]; Expires := Some 3%Z |} in
  let s : store := <["live" := live]> (<["stale" := stale]> ∅) in
  Get "none" 5 s = (([], false), s)
  ∧ Get "live" 5 s = (([x01], true), s)
  ∧ (Get "stale" 5 s).1 = ([], false)
  ∧ (Get "stale" 5 s).2 !! "stale" = None.
Proof.
  intros live stale s.
  destruct (Get_lazy_expiry "none" 5 s) as (Habsent & _ & _).
  destruct (Get_lazy_expiry "live" 5 s) as (_ & Hlive & _).
  destruct (Get_lazy_expiry "stale" 5 s) as (_ & _ & Hstale).
  split; [apply Habsent; reflexivity|].
  split.
  - apply (Hlive live); [reflexivity|].
    right. exists 9%Z. split; [reflexivity | lia].
  - destruct (Hstale stale 3%Z) as (Hres & _ & Hgone);
      [reflexivity | reflexivity | lia |].
    split; [exact Hres | exact Hgone].
Defined.

(** C10: [Get] leaves every entry other than the looked-up one as it was;
    it leaves the whole map as it was when the key is absent or present
    and not expired; and whenever the map does change, the change is the
    deletion of the looked-up entry, which was expired. *)
Theorem Get_frame (key : string) (now : Time) (s : store) :
  (∀ other, other ≠ key → (Get key now s).2 !! other = s !! other)
  ∧ (s !! key = None ∨ (∃ obj, s !! key = Some obj ∧ expired now obj = false) →
       (Get key now s).2 = s)
  ∧ ((Get key now s).2 ≠ s →
       (Get key now s).2 = delete key s
       ∧ ∃ obj, s !! key = Some obj ∧ expired now obj = true).
Proof.
  unfold Get. destruct (s !! key) as [obj|] eqn:Hk.
  - destruct (expired now obj) eqn:He; simpl.
    + split; [intros other Hne; by apply lookup_delete_ne|].
      split.
      * intros [Hnone | (obj' & Hsome & He')]; [discriminate|].
        congruence.
      * intros _. split; [done|]. by exists obj.
    + split; [done|]. split; [done|]. intros Hne. by destruct Hne.
  - simpl. split; [done|]. split; [done|]. intros Hne. by destruct Hne.
Qed.

Lemma Get_frame_witness :
  let stale := {| Data := [x02]; Expires := Some 3%Z |} in
  let s : store := <["other" := stale]> (<["stale" := stale]> ∅) in
  (Get "stale" 5 s).2 !! "other" = s !! "other"
  ∧ (Get "stale" 2 s).2 = s
  ∧ (Get "stale" 5 s).2 = delete "stale" s.
Proof.
  intros stale s.
  destruct (Get_frame "stale" 5 s) as (Hother & _ & Honly).
  destruct (Get_frame "stale" 2 s) as (_ & Hsame & _).
  split; [apply Hother; discriminate|].
  split.
  - apply Hsame. right. exists stale. split; reflexivity.
  - apply Honly. intros Heq.
    assert ((Get "stale" 5 s).2 !! "stale" = s !! "stale") as Habs
      by (rewrite Heq; reflexivity).
    vm_compute in Habs. discriminate.
Defined.

(** ** Put *)

Lemma Put_lookup (key : string) (data : list byte) (expires : option Time)
    (s : store) :
  Put key data expires s !! key = Some {| Data := data; Expires := expires |}.
Proof. apply lookup_insert_eq. Qed.

Lemma Put_lookup_ne (key other : string) (data : list byte)
    (expires : option Time) (s : store) :
  other ≠ key → Put key data expires s !! other = s !! other.
Proof. intros Hne. unfold Put. by rewrite lookup_insert_ne. Qed.

Lemma Put_size (key : string) (data : list byte) (expires : option Time)
    (s : store) :
  size (Put key data expires s) =
  match s !! key with
  | Some _ => size s
  | None => S (size s)
  end.
Proof.
  unfold Put. destruct (s !! key) as [old|] eqn:Hk.
  - rewrite <- (insert_delete_id s key old Hk) at 2.
    rewrite <- (insert_delete_eq s).
    by rewrite !map_size_insert_None by apply lookup_delete_eq.
  - by apply map_size_insert_None.
Qed.

(** On a map that has been made, after [Put] the key holds exactly the
    object just written, whatever it held before: a second [Put] erases
    the first, expiry included; the number of entries grows by one for a
    new key and not at all for an existing one; the keys of the map stay
    pairwise distinct; every other key is untouched; and a [Get] for
    which the new entry has not expired returns the new data. *)
Theorem Put_overwrites (key : string) (data : list byte)
    (expires : option Time) (s : store) :
  Put key data expires s !! key = Some {| Data := data; Expires := expires |}
  ∧ (∀ data0 expires0,
       Put key data expires (Put key data0 expires0 s) = Put key data expires s)
  ∧ size (Put key data expires s) =
      match s !! key with Some _ => size s | None => S (size s) end
  ∧ NoDup (map_to_list (Put key data expires s)).*1
  ∧ (∀ other, other ≠ key → Put key data expires s !! other = s !! other)
  ∧ (∀ now,
       expires = None ∨ (∃ t, expires = Some t ∧ (now ≤ t)%Z) →
       Get key now (Put key data expires s)
       = ((data, true), Put key data expires s)).
Proof.
  split; [apply Put_lookup|].
  split; [intros; apply insert_insert_eq|].
  split; [apply Put_size|].
  split; [apply NoDup_fst_map_to_list|].
  split; [intros other Hne; by apply Put_lookup_ne|].
  intros now Hlive.
  apply (Get_live key now _ {| Data := data; Expires := expires |}).
  - apply Put_lookup.
  - by apply not_expired_iff.
Qed.

Lemma Put_overwrites_witness :
  let s1 : store := Put "k" [x01] None ∅ in
  let s2 : store := Put "k" [x02] (Some 9%Z) s1 in
  s2 !! "k" = Some {| Data := [x02]; Expires := Some 9%Z |}
  ∧ size s2 = 1%nat
  ∧ Get "k" 5 s2 = (([x02], true), s2).
Proof.
  intros s1 s2.
  destruct (Put_overwrites "k" [x02] (Some 9%Z) s1)
    as (Hlook & _ & Hsize & _ & _ & Hget).
  split; [exact Hlook|].
  split; [exact Hsize|].
  apply Hget. right. exists 9%Z. split; [reflexivity | lia].
Defined.

(** ** The janitor sweep *)

Section Sweep.
Context (clock : string → Time).

(** The loop only ever deletes. *)
Lemma sweep_in_order_absent (visit : list (string * Object)) (s : store)
    (k : string) :
  s !! k = None → sweep_in_order clock visit s !! k = None.
Proof.
  revert s. induction visit as [|[k' obj'] visit IH]; intros s Hk; [done|].
  simpl. apply IH. unfold sweep_entry; simpl.
  destruct (expired (clock k') obj'); [|done].
  destruct (decide (k' = k)) as [->|Hne].
  - apply lookup_delete_eq.
  - by rewrite lookup_delete_ne.
Qed.

(** A visited entry that the test finds expired is gone at the end. *)
Lemma sweep_in_order_removes (visit : list (string * Object)) (s : store)
    (k : string) (obj : Object) :
  (k, obj) ∈ visit → expired (clock k) obj = true →
  sweep_in_order clock visit s !! k = None.
Proof.
  revert s. induction visit as [|[k' obj'] visit IH]; intros s Hin He.
  - by apply not_elem_of_nil in Hin.
  - apply elem_of_cons in Hin as [Heq | Hin].
    + injection Heq as <- <-. simpl.
      apply sweep_in_order_absent. unfold sweep_entry; simpl.
      rewrite He. apply lookup_delete_eq.
    + simpl. by apply IH.
Qed.

(** A key none of whose visits finds it expired keeps its entry. *)
Lemma sweep_in_order_keeps (visit : list (string * Object)) (s : store)
    (k : string) :
  (∀ obj, (k, obj) ∈ visit → expired (clock k) obj = false) →
  sweep_in_order clock visit s !! k = s !! k.
Proof.
  revert s. induction visit as [|[k' obj'] visit IH]; intros s Hlive; [done|].
  simpl. rewrite IH.
  - unfold sweep_entry; simpl.
    destruct (expired (clock k') obj') eqn:He; [|done].
    destruct (decide (k' = k)) as [->|Hne].
    + rewrite Hlive in He; [discriminate | left].
    + by rewrite lookup_delete_ne.
  - intros obj Hin. apply Hlive. by right.
Qed.

(** The sweep in any visiting order that enumerates the map. *)
Lemma sweep_in_order_lookup (visit : list (string * Object)) (s : store)
    (k : string) :
  visit ≡ₚ map_to_list s →
  sweep_in_order clock visit s !! k =
  match s !! k with
  | Some obj => if expired (clock k) obj then None else Some obj
  | None => None
  end.
Proof.
  intros Hperm.
  assert (∀ obj, (k, obj) ∈ visit ↔ s !! k = Some obj) as Hvisit.
  { intros obj. rewrite Hperm. apply elem_of_map_to_list. }
  destruct (s !! k) as [obj|] eqn:Hk.
  - destruct (expired (clock k) obj) eqn:He.
    + apply (sweep_in_order_removes visit s k obj); [|done].
      by apply Hvisit.
    + rewrite sweep_in_order_keeps; [done|].
      intros obj' Hin. apply Hvisit in Hin. congruence.
  - by apply sweep_in_order_absent.
Qed.
End Sweep.

(** C4, as stated, fails at the instant of expiry: an entry whose [Expires]
    equals the clock reading of the tick is expired in the specification's
    sense, yet the sweep keeps it, because [Before] is strict. *)
Lemma janitor_tick_at_expiry_instant :
  let obj := {| Data := [x01]; Expires := Some 5%Z |} in
  let s : store := Put "k" [x01] (Some 5%Z) ∅ in
  s !! "k" = Some obj
  ∧ spec_expired 5 obj = true
  ∧ janitor_tick (λ _, 5%Z) s !! "k" = Some obj
  ∧ janitor [Tick (λ _, 5%Z)] s = s.
Proof. repeat split. Qed.

(** C4, amended: a tick visits every entry of the map once, in whatever
    order, and afterwards the map holds exactly the entries that were
    there with no expiry or with [now <= expiresAt], unchanged, where
    [now] is the clock reading taken when the entry is visited; every
    entry with [expiresAt < now] is gone. *)
Theorem janitor_tick_sweeps (clock : string → Time)
    (visit : list (string * Object)) (s : store) (k : string) :
  visit ≡ₚ map_to_list s →
  sweep_in_order clock visit s !! k =
    match s !! k with
    | Some obj =>
        match Expires obj with
        | Some t => if (t <? clock k)%Z then None else Some obj
        | None => Some obj
        end
    | None => None
    end
  ∧ janitor [Tick clock] s !! k = sweep_in_order clock visit s !! k.
Proof.
  intros Hperm.
  assert (∀ l, l ≡ₚ map_to_list s →
            sweep_in_order clock l s !! k =
            match s !! k with
            | Some obj =>
                match Expires obj with
                | Some t => if (t <? clock k)%Z then None else Some obj
                | None => Some obj
                end
            | None => None
            end) as Hany.
  { intros l Hl. rewrite (sweep_in_order_lookup clock l s k Hl).
    destruct (s !! k) as [obj|]; [|done].
    unfold expired, Before. by destruct (Expires obj). }
  split; [by apply Hany|].
  simpl. unfold janitor_tick. by rewrite !Hany.
Qed.

Lemma janitor_tick_sweeps_witness :
  let stale := {| Data := [x02]; Expires := Some 3%Z |} in
  let live := {| Data := [x01]; Expires := Some 9%Z |} in
  let s : store := <["live" := live]> (<["stale" := stale]> ∅) in
  sweep_in_order (λ _, 5%Z) (map_to_list s) s !! "stale" = None
  ∧ janitor [Tick (λ _, 5%Z)] s !! "live" = Some live.
Proof.
  intros stale live s.
  destruct (janitor_tick_sweeps (λ _, 5%Z) (map_to_list s) s "stale")
    as [Hstale _]; [reflexivity|].
  destruct (janitor_tick_sweeps (λ _, 5%Z) (map_to_list s) s "live")
    as [Hlive Htick]; [reflexivity|].
  split; [exact Hstale|].
  rewrite Htick. exact Hlive.
Defined.

(** ** Files *)

Lemma Sprintf_json_gob (name : string) :
  Sprintf name JSONFormat ≠ Sprintf name GobFormat.
Proof.
  unfold Sprintf, JSONFormat, GobFormat.
  induction name as [|c name IH]; simpl; [discriminate|].
  intros Heq. injection Heq as Heq. by apply IH.
Qed.

Lemma os_Create_ok (d : disk) (path : string) :
  d !! path ≠ Some NoAccess → os_Create d path = Some (<[path := File []]> d).
Proof.
  intros Hok. unfold os_Create.
  destruct (d !! path) as [[content|]|]; done.
Qed.

Lemma os_Open_file (d : disk) (path : string) (content : list byte) :
  d !! path = Some (File content) → os_Open d path = Opened content.
Proof. intros Hd. unfold os_Open. by rewrite Hd. Qed.

Lemma os_Open_missing (d : disk) (path : string) :
  d !! path = None → os_Open d path = ErrNotExist.
Proof. intros Hd. unfold os_Open. by rewrite Hd. Qed.

Lemma os_Open_no_access (d : disk) (path : string) :
  d !! path = Some NoAccess → os_Open d path = ErrOther.
Proof. intros Hd. unfold os_Open. by rewrite Hd. Qed.

(** ** save *)

Section SaveFacts.
Context (json gob : Codec).

Lemma save_json (name : string) (s : store) (d : disk)
    (content : list byte) (ok : bool) :
  d !! Sprintf name JSONFormat ≠ Some NoAccess →
  Encode json s = (content, ok) →
  save json gob name JSONFormat s d =
    ((if ok then size s else 0%nat,
      if ok then None else Some JSONEncodeError),
     <[Sprintf name JSONFormat := File content]> d).
Proof.
  intros Hd Henc. unfold save, write_file.
  rewrite (os_Create_ok _ _ Hd), Henc, insert_insert_eq.
  rewrite decide_True by done. by destruct ok.
Qed.

Lemma save_gob (name : string) (s : store) (d : disk)
    (content : list byte) (ok : bool) :
  d !! Sprintf name GobFormat ≠ Some NoAccess →
  Encode gob s = (content, ok) →
  save json gob name GobFormat s d =
    ((if ok then size s else 0%nat,
      if ok then None else Some GobEncodeError),
     <[Sprintf name GobFormat := File content]> d).
Proof.
  intros Hd Henc. unfold save, write_file.
  rewrite (os_Create_ok _ _ Hd), Henc, insert_insert_eq.
  rewrite decide_False by done. rewrite decide_True by done.
  by destruct ok.
Qed.

Lemma save_create_error (name : string) (format : Format) (s : store)
    (d : disk) :
  d !! Sprintf name format = Some NoAccess →
  save json gob name format s d = ((0%nat, Some CreateFileError), d).
Proof. intros Hd. unfold save, os_Create. by rewrite Hd. Qed.
End SaveFacts.

(** C5: for either supported format, when the file can be created and the
    encoder succeeds, [save] hands the encoder the map itself, every entry
    of it, expired or not, with nothing filtered; what the encoder wrote
    becomes the whole content of [<name>.<format>], whatever was at that
    path before; every other path is untouched; and the count returned is
    the size of the map. *)
Theorem save_writes_whole_map (json gob : Codec) (name : string)
    (format : Format) (s : store) (d : disk) (content : list byte) :
  (format = JSONFormat ∧ Encode json s = (content, true))
  ∨ (format = GobFormat ∧ Encode gob s = (content, true)) →
  d !! Sprintf name format ≠ Some NoAccess →
  save json gob name format s d =
    ((size s, None), <[Sprintf name format := File content]> d)
  ∧ (save json gob name format s d).2 !! Sprintf name format
      = Some (File content)
  ∧ (∀ path, path ≠ Sprintf name format →
       (save json gob name format s d).2 !! path = d !! path).
Proof.
  intros Hfmt Hd.
  assert (save json gob name format s d =
            ((size s, None), <[Sprintf name format := File content]> d))
    as ->.
  { destruct Hfmt as [[-> Henc] | [-> Henc]].
    - by rewrite (save_json json gob name s d content true).
    - by rewrite (save_gob json gob name s d content true). }
  split; [done|]. simpl. split; [apply lookup_insert_eq|].
  intros path Hne. by rewrite lookup_insert_ne.
Qed.

(** C9: for a format that is neither ["json"] nor ["gob"], [save] creates
    or truncates [<name>.<format>], writes nothing into it, and returns the
    size of the map with a nil error.  [WithPersistent] replaces only the
    empty format, by ["gob"], and [New] hands any other format on to the
    saver as it is. *)
Theorem save_unknown_format (json gob : Codec) (name : string)
    (format : Format) (s : store) (d : disk) :
  format ≠ JSONFormat → format ≠ GobFormat →
  d !! Sprintf name format ≠ Some NoAccess →
  save json gob name format s d =
    ((size s, None), <[Sprintf name format := File []]> d)
  ∧ (∀ (interval : Duration) (o : options),
       ∃ p, opt_persistent
              (WithPersistent
                 {| PFormat := format; PInterval := interval; PName := name |}
                 o) = Some p
            ∧ PFormat p = if decide (format = "") then GobFormat else format)
  ∧ (format ≠ "" →
     ∀ (interval : Duration),
       ∃ p, started (New json gob d
              [WithPersistent
                 {| PFormat := format; PInterval := interval;
                    PName := name |}]) = [SaverTask p]
            ∧ PFormat p = format).
Proof.
  intros Hjson Hgob Hd. split.
  - unfold save. rewrite (os_Create_ok _ _ Hd).
    rewrite decide_False by done. by rewrite decide_False by done.
  - split; [intros interval o; eexists; split; reflexivity|].
    intros Hne interval. unfold New. simpl.
    destruct (load json gob _ ∅ d) as [[cnt err] st1]. simpl.
    eexists. split; [reflexivity|]. simpl.
    by rewrite decide_False by done.
Qed.

Lemma save_unknown_format_witness :
  let s : store := Put "k" [x01] None ∅ in
  save Wire.codec Wire.codec "snap" "xml" s ∅
  = ((1%nat, None), {["snap.xml" := File []]}).
Proof.
  intros s.
  destruct (save_unknown_format Wire.codec Wire.codec "snap" "xml" s ∅)
    as [Hsave _]; [discriminate | discriminate | discriminate |].
  exact Hsave.
Defined.

Lemma save_writes_whole_map_witness :
  let stale := {| Data := [x02]; Expires := Some 3%Z |} in
  let s : store := <["stale" := stale]> ∅ in
  let d : disk := {["snap.gob" := File [xff; xff]]} in
  save Wire.codec Wire.codec "snap" GobFormat s d
  = ((1%nat, None), {["snap.gob" := File (Wire.put_entry ("stale", stale))]}).
Proof.
  intros stale s d.
  destruct (save_writes_whole_map Wire.codec Wire.codec "snap" GobFormat s d
              (Wire.put_entry ("stale", stale))) as [Hsave _].
  - right. split; reflexivity.
  - discriminate.
  - rewrite Hsave. reflexivity.
Defined.

(** ** load *)

Section LoadFacts.
Context (json gob : Codec).

Lemma load_gob_file (name : string) (s : store) (d : disk)
    (content : list byte) :
  d !! Sprintf name GobFormat = Some (File content) →
  load json gob name s d =
    (let '(s', ok) := Decode gob content s in
     if ok then ((size s', None), s')
     else ((0%nat, Some GobDecodeError), s')).
Proof.
  intros Hd. unfold load, load_decode.
  rewrite (os_Open_file _ _ _ Hd).
  rewrite decide_False by done. by rewrite decide_True by done.
Qed.

Lemma load_gob_no_access (name : string) (s : store) (d : disk) :
  d !! Sprintf name GobFormat = Some NoAccess →
  load json gob name s d = ((0%nat, Some OpenGobFileError), s).
Proof. intros Hd. unfold load. by rewrite (os_Open_no_access _ _ Hd). Qed.

Lemma load_json_file (name : string) (s : store) (d : disk)
    (content : list byte) :
  d !! Sprintf name GobFormat = None →
  d !! Sprintf name JSONFormat = Some (File content) →
  load json gob name s d =
    (let '(s', ok) := Decode json content s in
     if ok then ((size s', None), s')
     else ((0%nat, Some JSONDecodeError), s')).
Proof.
  intros Hgob Hjson. unfold load, load_decode.
  rewrite (os_Open_missing _ _ Hgob), (os_Open_file _ _ _ Hjson).
  by rewrite decide_True by done.
Qed.

Lemma load_json_no_access (name : string) (s : store) (d : disk) :
  d !! Sprintf name GobFormat = None →
  d !! Sprintf name JSONFormat = Some NoAccess →
  load json gob name s d = ((0%nat, Some OpenJSONFileError), s).
Proof.
  intros Hgob Hjson. unfold load.
  by rewrite (os_Open_missing _ _ Hgob), (os_Open_no_access _ _ Hjson).
Qed.

Lemma load_no_file (name : string) (s : store) (d : disk) :
  d !! Sprintf name GobFormat = None →
  d !! Sprintf name JSONFormat = None →
  load json gob name s d = ((0%nat, None), s).
Proof.
  intros Hgob Hjson. unfold load.
  by rewrite (os_Open_missing _ _ Hgob), (os_Open_missing _ _ Hjson).
Qed.
End LoadFacts.

(** C6: [load] opens [<name>.gob] first.  If it opens, that file alone is
    decoded, with the gob decoder, and [<name>.json] is not looked at; if
    opening fails for another reason than the file not existing, that is
    the error returned.  Exactly when [<name>.gob] does not exist,
    [<name>.json] is opened, and likewise decoded or its open error
    returned.  When neither exists [load] returns zero and a nil error and
    leaves the map as it is, so [New] returns an empty store.  A decoder
    that fails makes [load] return zero and the decode error. *)
Theorem load_gob_then_json (json gob : Codec) (name : string) (s : store)
    (d : disk) :
  (∀ content s' ok,
     d !! Sprintf name GobFormat = Some (File content) →
     Decode gob content s = (s', ok) →
     load json gob name s d =
       if ok then ((size s', None), s')
       else ((0%nat, Some GobDecodeError), s'))
  ∧ (d !! Sprintf name GobFormat = Some NoAccess →
     load json gob name s d = ((0%nat, Some OpenGobFileError), s))
  ∧ (∀ content s' ok,
       d !! Sprintf name GobFormat = None →
       d !! Sprintf name JSONFormat = Some (File content) →
       Decode json content s = (s', ok) →
       load json gob name s d =
         if ok then ((size s', None), s')
         else ((0%nat, Some JSONDecodeError), s'))
  ∧ (d !! Sprintf name GobFormat = None →
     d !! Sprintf name JSONFormat = Some NoAccess →
     load json gob name s d = ((0%nat, Some OpenJSONFileError), s))
  ∧ (d !! Sprintf name GobFormat = None →
     d !! Sprintf name JSONFormat = None →
     load json gob name s d = ((0%nat, None), s)
     ∧ ∀ p, PName (with_defaults p) = name →
            New json gob d [WithPersistent p]
            = {| storage := ∅;
                 started := [SaverTask (with_defaults p)];
                 logged := [LogLoaded 0 name;
                            LogPersistentEnabled (with_defaults p)] |}).
Proof.
  split.
  { intros content s' ok Hd Hdec.
    by rewrite (load_gob_file json gob name s d content Hd), Hdec. }
  split; [apply load_gob_no_access|].
  split.
  { intros content s' ok Hgob Hjson Hdec.
    by rewrite (load_json_file json gob name s d content Hgob Hjson), Hdec. }
  split; [apply load_json_no_access|].
  intros Hgob Hjson. split; [by apply load_no_file|].
  intros p Hname. unfold with_defaults in Hname. simpl in Hname.
  unfold New, with_defaults. simpl. rewrite Hname.
  by rewrite (load_no_file json gob name ∅ d Hgob Hjson).
Qed.

Lemma load_gob_then_json_witness :
  let obj := {| Data := [x01]; Expires := None |} in
  let in_gob := Wire.put_entry ("g", obj) in
  let in_json := Wire.put_entry ("j", obj) in
  let both : disk :=
    <["snap.gob" := File in_gob]> {["snap.json" := File in_json]} in
  let only_json : disk := {["snap.json" := File in_json]} in
  let locked : disk :=
    <["snap.gob" := NoAccess]> {["snap.json" := File in_json]} in
  load Wire.codec Wire.codec "snap" ∅ both = ((1%nat, None), {["g" := obj]})
  ∧ load Wire.codec Wire.codec "snap" ∅ only_json
    = ((1%nat, None), {["j" := obj]})
  ∧ load Wire.codec Wire.codec "snap" ∅ locked
    = ((0%nat, Some OpenGobFileError), ∅)
  ∧ load Wire.codec Wire.codec "snap" ∅ ∅ = ((0%nat, None), ∅)
  ∧ storage (New Wire.codec Wire.codec ∅
               [WithPersistent
                  {| PFormat := ""; PInterval := 0; PName := "snap" |}]) = ∅.
Proof.
  intros obj in_gob in_json both only_json locked.
  destruct (load_gob_then_json Wire.codec Wire.codec "snap" ∅ both)
    as (Hgob & _).
  destruct (load_gob_then_json Wire.codec Wire.codec "snap" ∅ only_json)
    as (_ & _ & Hjson & _).
  destruct (load_gob_then_json Wire.codec Wire.codec "snap" ∅ locked)
    as (_ & Hlocked & _).
  destruct (load_gob_then_json Wire.codec Wire.codec "snap" ∅ ∅)
    as (_ & _ & _ & _ & Hnone).
  split.
  { rewrite (Hgob in_gob {["g" := obj]} true) by reflexivity. reflexivity. }
  split.
  { rewrite (Hjson in_json {["j" := obj]} true) by reflexivity. reflexivity. }
  split; [apply Hlocked; reflexivity|].
  destruct Hnone as [Hload Hnew]; [reflexivity | reflexivity |].
  split; [exact Hload|].
  rewrite (Hnew {| PFormat := ""; PInterval := 0; PName := "snap" |})
    by reflexivity.
  reflexivity.
Defined.

(** ** save, then load *)

Lemma save_ok_inv (json gob : Codec) (name : string) (format : Format)
    (s : store) (d d' : disk) (cnt : nat) :
  save json gob name format s d = ((cnt, None), d') →
  (format = JSONFormat →
     cnt = size s ∧ Encode json s = ((Encode json s).1, true)
     ∧ d' = <[Sprintf name format := File (Encode json s).1]> d)
  ∧ (format = GobFormat →
     cnt = size s ∧ Encode gob s = ((Encode gob s).1, true)
     ∧ d' = <[Sprintf name format := File (Encode gob s).1]> d).
Proof.
  unfold save, os_Create, write_file. intros Hsave.
  assert (d !! Sprintf name format ≠ Some NoAccess) as Hd.
  { intros Hd. by rewrite Hd in Hsave. }
  assert (match d !! Sprintf name format with
          | Some NoAccess => None
          | _ => Some (<[Sprintf name format := File []]> d)
          end = Some (<[Sprintf name format := File []]> d)) as Hcreate.
  { by destruct (d !! Sprintf name format) as [[?|]|]. }
  rewrite Hcreate in Hsave. clear Hcreate. split.
  - intros ->. rewrite decide_True in Hsave by done.
    destruct (Encode json s) as [content [|]]; [|discriminate].
    injection Hsave as <- <-. by rewrite insert_insert_eq.
  - intros ->. rewrite decide_False, decide_True in Hsave by done.
    destruct (Encode gob s) as [content [|]]; [|discriminate].
    injection Hsave as <- <-. by rewrite insert_insert_eq.
Qed.

(** With any encoders: when a file [<name>.gob] is already there, [save]
    with json writes [<name>.json], [load] opens [<name>.gob] first and
    returns the old snapshot, though the encoder itself round-trips the
    map. *)
Lemma save_json_load_reads_old_gob :
  let old := {| Data := [x0f]; Expires := None |} in
  let new := {| Data := [x01]; Expires := Some 9%Z |} in
  let s : store := {["k" := new]} in
  let d : disk := {["snap.gob" := File (Wire.put_entry ("k", old))]} in
  let d' := (save Wire.codec Wire.codec "snap" JSONFormat s d).2 in
  (save Wire.codec Wire.codec "snap" JSONFormat s d).1 = (1%nat, None)
  ∧ Wire.decode (Wire.encode s).1 ∅ = (s, true)
  ∧ load Wire.codec Wire.codec "snap" ∅ d' = ((1%nat, None), {["k" := old]})
  ∧ (load Wire.codec Wire.codec "snap" ∅ d').2 ≠ s.
Proof.
  repeat split. intros Heq.
  assert ((load Wire.codec Wire.codec "snap" ∅
             (save Wire.codec Wire.codec "snap" JSONFormat
                {["k" := {| Data := [x01]; Expires := Some 9%Z |}]}
                {["snap.gob" :=
                    File (Wire.put_entry
                            ("k", {| Data := [x0f]; Expires := None |}))]}).2).2
            !! "k" = Some {| Data := [x01]; Expires := Some 9%Z |}) as Hk
    by (rewrite Heq; reflexivity).
  vm_compute in Hk. discriminate.
Qed.

(** With any encoders, [load] after [save] is the decoder after the
    encoder: if [save] returns a nil error and the decoder, run on an
    empty map, gives back the map the encoder was handed, then [load] into
    a fresh empty store returns that same map and its size; for json this
    needs that no file [<name>.gob] exists when [save] runs. *)
Theorem save_load_roundtrip (json gob : Codec) (name : string)
    (format : Format) (s : store) (d d' : disk) (cnt : nat) :
  (format = GobFormat ∧ Decode gob (Encode gob s).1 ∅ = (s, true))
  ∨ (format = JSONFormat ∧ d !! Sprintf name GobFormat = None
     ∧ Decode json (Encode json s).1 ∅ = (s, true)) →
  save json gob name format s d = ((cnt, None), d') →
  cnt = size s ∧ load json gob name ∅ d' = ((size s, None), s).
Proof.
  intros Hfmt Hsave.
  destruct (save_ok_inv json gob name format s d d' cnt Hsave)
    as [Hjson Hgob].
  destruct Hfmt as [[-> Hrt] | (-> & Hnogob & Hrt)].
  - destruct (Hgob eq_refl) as (-> & _ & ->). split; [done|].
    rewrite (load_gob_file json gob name ∅ _ (Encode gob s).1)
      by apply lookup_insert_eq.
    by rewrite Hrt.
  - destruct (Hjson eq_refl) as (-> & _ & ->). split; [done|].
    rewrite (load_json_file json gob name ∅ _ (Encode json s).1).
    + by rewrite Hrt.
    + rewrite lookup_insert_ne; [done | apply Sprintf_json_gob].
    + apply lookup_insert_eq.
Qed.

Lemma save_load_roundtrip_witness :
  let stale := {| Data := [x02; xff]; Expires := Some (-3)%Z |} in
  let live := {| Data := []; Expires := None |} in
  let s : store := <["" := live]> (<["stale" := stale]> ∅) in
  let d : disk := {["snap.json" := File [x07]]} in
  load Wire.codec Wire.codec "snap" ∅
    (save Wire.codec Wire.codec "snap" JSONFormat s d).2 = ((2%nat, None), s)
  ∧ load Wire.codec Wire.codec "snap" ∅
      (save Wire.codec Wire.codec "snap" GobFormat s d).2 = ((2%nat, None), s).
Proof.
  intros stale live s d. split.
  - destruct (save_load_roundtrip Wire.codec Wire.codec "snap" JSONFormat s d
                (save Wire.codec Wire.codec "snap" JSONFormat s d).2 2)
      as [_ Hload].
    + right. split; [reflexivity|]. split; [reflexivity|].
      vm_compute. reflexivity.
    + vm_compute. reflexivity.
    + rewrite Hload. reflexivity.
  - destruct (save_load_roundtrip Wire.codec Wire.codec "snap" GobFormat s d
                (save Wire.codec Wire.codec "snap" GobFormat s d).2 2)
      as [_ Hload].
    + left. split; [reflexivity|]. vm_compute. reflexivity.
    + vm_compute. reflexivity.
    + rewrite Hload. reflexivity.
Defined.

(** ** The constructor *)

Lemma WithPersistent_stores (p : Persistent) (o : options) :
  WithPersistent p o
  = {| opt_janitor := opt_janitor o;
       opt_persistent := Some (with_defaults p) |}.
Proof. reflexivity. Qed.

Lemma New_plain (json gob : Codec) (d : disk) :
  New json gob d [] = {| storage := ∅; started := []; logged := [] |}.
Proof. reflexivity. Qed.

(** ** A snapshot that does not decode *)

(** C7, as stated, fails when the decoder has stored entries before it
    meets the error: here a well-formed entry followed by a stray byte.
    [load] returns the decode error, [New] logs it and returns the store,
    and the store holds the entry decoded before the error. *)
Lemma load_decode_error_keeps_entries :
  let obj := {| Data := [x01]; Expires := None |} in
  let d : disk :=
    {["snap.json" := File (Wire.put_entry ("a", obj) ++ [xff])%list]} in
  let p := {| PFormat := JSONFormat; PInterval := Second; PName := "snap" |} in
  load Wire.codec Wire.codec "snap" ∅ d
    = ((0%nat, Some JSONDecodeError), {["a" := obj]})
  ∧ New Wire.codec Wire.codec d [WithPersistent p]
    = {| storage := {["a" := obj]};
         started := [SaverTask p];
         logged := [LogLoadError JSONDecodeError; LogPersistentEnabled p] |}
  ∧ storage (New Wire.codec Wire.codec d [WithPersistent p]) !! "a" = Some obj
  ∧ storage (New Wire.codec Wire.codec d [WithPersistent p]) ≠ ∅.
Proof.
  repeat split. intros Heq.
  assert (storage (New Wire.codec Wire.codec
            {["snap.json" :=
                File (Wire.put_entry
                        ("a", {| Data := [x01]; Expires := None |})
                        ++ [xff])%list]}
            [WithPersistent
               {| PFormat := JSONFormat; PInterval := Second;
                  PName := "snap" |}]) !! "a" = None) as Ha
    by (rewrite Heq; reflexivity).
  vm_compute in Ha. discriminate.
Qed.

(** C7, amended: when the snapshot file that [load] opens does not decode,
    [load] returns zero and the decode error; [New] logs the error, starts
    the saver and returns the store all the same; and the map of that
    store is the map as the failed decoder left it, since [load] decodes
    straight into it and does not reset it.  The store is empty exactly
    when the decoder had stored nothing. *)
Theorem New_after_decode_error (json gob : Codec) (d : disk)
    (p : Persistent) (content : list byte) (left_by_decoder : store)
    (e : error) :
  let name := PName (with_defaults p) in
  (d !! Sprintf name GobFormat = Some (File content)
   ∧ Decode gob content ∅ = (left_by_decoder, false)
   ∧ e = GobDecodeError)
  ∨ (d !! Sprintf name GobFormat = None
     ∧ d !! Sprintf name JSONFormat = Some (File content)
     ∧ Decode json content ∅ = (left_by_decoder, false)
     ∧ e = JSONDecodeError) →
  load json gob name ∅ d = ((0%nat, Some e), left_by_decoder)
  ∧ New json gob d [WithPersistent p]
    = {| storage := left_by_decoder;
         started := [SaverTask (with_defaults p)];
         logged := [LogLoadError e; LogPersistentEnabled (with_defaults p)] |}
  ∧ (storage (New json gob d [WithPersistent p]) = ∅ ↔ left_by_decoder = ∅).
Proof.
  intros name Hfile.
  assert (load json gob name ∅ d = ((0%nat, Some e), left_by_decoder))
    as Hload.
  { destruct Hfile as [(Hgob & Hdec & ->) | (Hgob & Hjson & Hdec & ->)].
    - by rewrite (load_gob_file json gob name ∅ d content Hgob), Hdec.
    - by rewrite (load_json_file json gob name ∅ d content Hgob Hjson), Hdec. }
  assert (New json gob d [WithPersistent p]
          = {| storage := left_by_decoder;
               started := [SaverTask (with_defaults p)];
               logged := [LogLoadError e;
                          LogPersistentEnabled (with_defaults p)] |}) as Hnew.
  { unfold name, with_defaults in Hload. simpl in Hload.
    unfold New, with_defaults. simpl. by rewrite Hload. }
  split; [done|]. split; [done|]. by rewrite Hnew.
Qed.

Lemma New_after_decode_error_witness :
  let obj := {| Data := [x01]; Expires := None |} in
  let d : disk :=
    {["go-persista.gob" := File (Wire.put_entry ("a", obj) ++ [xff])%list]} in
  let p := {| PFormat := ""; PInterval := 0; PName := "" |} in
  storage (New Wire.codec Wire.codec d [WithPersistent p]) = {["a" := obj]}
  ∧ logged (New Wire.codec Wire.codec d [WithPersistent p])
    = [LogLoadError GobDecodeError; LogPersistentEnabled (with_defaults p)].
Proof.
  intros obj d p.
  destruct (New_after_decode_error Wire.codec Wire.codec d p
              (Wire.put_entry ("a", obj) ++ [xff])%list {["a" := obj]}
              GobDecodeError) as (_ & Hnew & _).
  - left. split; [reflexivity|].
    split; [vm_compute; reflexivity | reflexivity].
  - rewrite Hnew. split; reflexivity.
Defined.

(** ** Get under the mutex *)

Module RaceFacts.
Import Race.

Lemma step_shared_only (i : nat) (w w' : world) :
  shared_only w → step i w = Some w' → shared_only w'.
Proof.
  intros [Hmu Hws]. unfold step.
  destruct (goroutines w !! i) as [g|]; [|discriminate].
  destruct (at_pc g) as [| |obj| |res|res].
  - rewrite Hmu. intros [= <-]. by split.
  - destruct (mem w !! key g); intros [= <-]; by split.
  - destruct (expired (now g) obj); intros [= <-]; by split.
  - intros [= <-]. split; [done|]. simpl.
    apply Forall_app. split; [done|]. by apply Forall_singleton.
  - intros [= <-]. by split.
  - discriminate.
Qed.

Lemma run_shared_only (schedule : list nat) (w w' : world) :
  shared_only w → run schedule w = Some w' → shared_only w'.
Proof.
  revert w. induction schedule as [|i schedule IH]; intros w Hw; simpl.
  - by intros [= <-].
  - destruct (step i w) as [w1|] eqn:Hstep; [|discriminate].
    apply IH. by apply (step_shared_only i w).
Qed.

(** No step of [Get] acquires the mutex exclusively: however the
    goroutines calling [Get] are scheduled, every deletion
    they perform happens with the mutex not held exclusively. *)
Lemma Get_never_exclusive (n : nat) (k : string) (t : Time) (s : store)
    (schedule : list nat) (w : world) :
  run schedule (calls n k t s) = Some w →
  Forall (λ x, exclusive (held x) = false) (writes w).
Proof.
  intros Hrun.
  destruct (run_shared_only schedule (calls n k t s) w) as [_ Hws];
    [by split | done |].
  eapply Forall_impl; [exact Hws|].
  intros x Hx. unfold exclusive. by rewrite Hx.
Qed.

(** C8: two goroutines call [Get("k")] on an expired entry.  Both take
    the read lock, both find the entry, both find it expired, and both
    run [delete(s.storage, key)], one after the other, while both hold
    the mutex shared and nobody holds it exclusively.  Both return
    not-found. *)
Theorem Get_deletes_under_read_lock :
  let s : store := Put "k" [x01] (Some 5%Z) ∅ in
  ∃ w,
    run [0; 1; 0; 1; 0; 1; 0; 1; 0; 1]%nat (calls 2 "k" 9 s) = Some w
    ∧ at_pc <$> goroutines w = [Returned ([], false); Returned ([], false)]
    ∧ mem w = ∅
    ∧ writes w =
        [ {| by_goroutine := 0; held := {| readers := 2; writer := false |} |};
          {| by_goroutine := 1; held := {| readers := 2; writer := false |} |} ]
    ∧ Forall (λ x, exclusive (held x) = false) (writes w).
Proof.
  eexists. split; [vm_compute; reflexivity|].
  split; [reflexivity|]. split; [reflexivity|]. split; [reflexivity|].
  repeat constructor.
Qed.

End RaceFacts.

(** ** The reference encoding round-trips *)

Module WireFacts.
Import Wire.

Lemma take_put_bytes (l rest : list byte) :
  take_bytes (put_bytes l ++ rest) = Some (l, rest).
Proof.
  induction l as [|b l IH]; [done|].
  cbn [put_bytes app take_bytes]. by rewrite IH.
Qed.

Lemma bits_pos_bits (p : positive) : bits_pos (pos_bits p) = Some p.
Proof. induction p as [p IH|p IH|]; simpl; by rewrite ?IH. Qed.

Lemma take_put_Z (z : Z) (rest : list byte) :
  take_Z (put_Z z ++ rest) = Some (z, rest).
Proof.
  destruct z as [|p|p]; [done| |];
    cbn [put_Z app take_Z];
    rewrite take_put_bytes; simpl; by rewrite bits_pos_bits.
Qed.

Lemma take_put_expires (e : option Time) (rest : list byte) :
  take_expires (put_expires e ++ rest) = Some (e, rest).
Proof.
  destruct e as [t|]; [|done].
  cbn [put_expires app take_expires]. by rewrite take_put_Z.
Qed.

Lemma take_put_entry (kv : string * Object) (rest : list byte) :
  take_entry (put_entry kv ++ rest) = Some (kv, rest).
Proof.
  destruct kv as [k [data e]]. unfold take_entry, put_entry. simpl.
  rewrite <- !app_assoc, take_put_bytes. simpl.
  rewrite take_put_bytes. simpl.
  rewrite take_put_expires. simpl.
  by rewrite string_of_list_byte_of_string.
Qed.

Lemma put_bytes_length (l : list byte) : (1 ≤ length (put_bytes l))%nat.
Proof. destruct l; simpl; lia. Qed.

Lemma put_entry_length (kv : string * Object) :
  (1 ≤ length (put_entry kv))%nat.
Proof.
  unfold put_entry. rewrite length_app.
  pose proof (put_bytes_length (list_byte_of_string kv.1)). lia.
Qed.

(** The decoder on an encoded list of entries stores them in turn. *)
Lemma decode_from_put_entries (l : list (string * Object)) (fuel : nat)
    (s : store) :
  (length l ≤ fuel)%nat →
  decode_from fuel (put_entries l) s =
    (foldl (λ m kv, <[kv.1 := kv.2]> m) s l, true).
Proof.
  revert fuel s. induction l as [|kv l IH]; intros fuel s Hfuel.
  - by destruct fuel.
  - destruct fuel as [|fuel]; [simpl in Hfuel; lia|].
    unfold put_entries. cbn [map concat]. fold (put_entries l).
    pose proof (put_entry_length kv) as Hlen.
    destruct (put_entry kv ++ put_entries l)%list as [|b bs] eqn:Hbs.
    { apply (f_equal length) in Hbs. rewrite length_app in Hbs.
      simpl in Hbs. lia. }
    cbn [decode_from]. rewrite <- Hbs, take_put_entry.
    destruct kv as [k obj]. cbn [foldl]. apply IH.
    simpl in Hfuel. lia.
Qed.

Lemma put_entries_length (l : list (string * Object)) :
  (length l ≤ length (put_entries l))%nat.
Proof.
  induction l as [|kv l IH]; [done|].
  unfold put_entries. cbn [map concat]. fold (put_entries l).
  rewrite length_app. pose proof (put_entry_length kv). simpl. lia.
Qed.

(** Storing entries with distinct keys one by one, in any order. *)
Lemma foldl_insert_lookup (l : list (string * Object)) (s : store)
    (k : string) :
  NoDup l.*1 →
  foldl (λ m kv, <[kv.1 := kv.2]> m) s l !! k =
    match (list_to_map l : store) !! k with
    | Some obj => Some obj
    | None => s !! k
    end.
Proof.
  revert s. induction l as [|[k' obj'] l IH]; intros s Hnd; [done|].
  apply NoDup_cons in Hnd as [Hfresh Hnd]. cbn [foldl list_to_map foldr].
  rewrite IH by done. simpl.
  destruct (decide (k' = k)) as [->|Hne].
  - rewrite lookup_insert_eq.
    by rewrite (not_elem_of_list_to_map_1 l k Hfresh), lookup_insert_eq.
  - by rewrite !lookup_insert_ne by done.
Qed.

(** Decoding, into an empty map, what was encoded gives the map back:
    every key, its data and its expiry. *)
Lemma decode_encode (s : store) : decode (encode s).1 ∅ = (s, true).
Proof.
  unfold decode, encode. simpl.
  rewrite decode_from_put_entries by apply put_entries_length.
  f_equal. apply map_eq. intros k.
  rewrite foldl_insert_lookup by apply NoDup_fst_map_to_list.
  rewrite list_to_map_to_list, lookup_empty. by destruct (s !! k).
Qed.

End WireFacts.

(** * Further properties *)

(** ** Reads *)

(** A not-found answer of [Get] means the key is not in the map
    afterwards; a found answer means the map is as it was and holds the
    entry whose data was returned. *)
Theorem Get_answer_tells_presence (key : string) (now : Time) (s : store) :
  ((Get key now s).1.2 = false → (Get key now s).2 !! key = None)
  ∧ ((Get key now s).1.2 = true →
       (Get key now s).2 = s
       ∧ ∃ obj, s !! key = Some obj ∧ (Get key now s).1.1 = Data obj).
Proof.
  unfold Get. destruct (s !! key) as [obj|] eqn:Hk.
  - destruct (expired now obj); simpl.
    + split; [intros _; apply lookup_delete_eq | discriminate].
    + split; [discriminate|]. intros _. split; [done|]. by exists obj.
  - simpl. split; [done | discriminate].
Qed.

Lemma Get_answer_tells_presence_witness :
  let stale := {| Data := [x02]; Expires := Some 3%Z |} in
  let s : store := {["stale" := stale]} in
  (Get "stale" 5 s).2 !! "stale" = None
  ∧ (Get "stale" 2 s).2 = s.
Proof.
  intros stale s.
  destruct (Get_answer_tells_presence "stale" 5 s) as [Hgone _].
  destruct (Get_answer_tells_presence "stale" 2 s) as [_ Hkept].
  split; [apply Hgone; reflexivity|].
  destruct Hkept as [Hsame _]; [reflexivity | exact Hsame].
Defined.

Lemma Get_other_keys (key : string) (now : Time) (s : store) (other : string) :
  other ≠ key → (Get key now s).2 !! other = s !! other.
Proof.
  intros Hne. unfold Get. destruct (s !! key) as [obj|]; [|done].
  destruct (expired now obj); [|done]. by apply lookup_delete_ne.
Qed.

Lemma expired_mono (now now' : Time) (obj : Object) :
  (now ≤ now')%Z → expired now obj = true → expired now' obj = true.
Proof.
  intros Hle. rewrite !expired_iff. intros (t & Ht & Hlt).
  exists t. split; [done | lia].
Qed.

(** Two reads of a key in a row, the clock not running backwards: the
    second returns, and leaves, what it would have without the first. *)
Theorem Get_after_earlier_Get (key : string) (now now' : Time) (s : store) :
  (now ≤ now')%Z →
  Get key now' (Get key now s).2 = Get key now' s.
Proof.
  intros Hle. unfold Get at 2. destruct (s !! key) as [obj|] eqn:Hk; [|done].
  destruct (expired now obj) eqn:He; [|done]. simpl.
  rewrite (Get_expired key now' s obj Hk (expired_mono _ _ _ Hle He)).
  rewrite Get_absent by apply lookup_delete_eq. done.
Qed.

Lemma Get_after_earlier_Get_witness :
  let s : store := {["k" := {| Data := [x02]; Expires := Some 3%Z |}]} in
  Get "k" 7 (Get "k" 5 s).2 = Get "k" 7 s.
Proof. intros s. apply Get_after_earlier_Get. lia. Defined.

(** A write of one key and a read of another do not see each other: the
    read returns the same before and after the write, and the two leave
    the same map in either order. *)
Theorem Get_Put_other_key (key other : string) (now : Time)
    (data : list byte) (expires : option Time) (s : store) :
  other ≠ key →
  Get other now (Put key data expires s)
  = ((Get other now s).1, Put key data expires (Get other now s).2).
Proof.
  intros Hne. unfold Get. rewrite Put_lookup_ne by done.
  destruct (s !! other) as [obj|]; [|done].
  destruct (expired now obj); [|done]. simpl.
  unfold Put. f_equal. apply delete_insert_ne. done.
Qed.

Lemma Get_Put_other_key_witness :
  let s : store := {["a" := {| Data := [x02]; Expires := Some 3%Z |}]} in
  Get "a" 5 (Put "b" [x01] None s)
  = ((Get "a" 5 s).1, Put "b" [x01] None (Get "a" 5 s).2).
Proof. intros s. apply Get_Put_other_key. discriminate. Defined.

(** An entry written with an expiry already in the past is never read:
    the next [Get] returns not-found and removes it, and with it whatever
    the key held before the write. *)
Theorem Put_in_the_past_then_Get (key : string) (data : list byte)
    (t now : Time) (s : store) :
  (t < now)%Z →
  Get key now (Put key data (Some t) s) = (([], false), delete key s).
Proof.
  intros Hlt.
  rewrite (Get_expired key now _ {| Data := data; Expires := Some t |}).
  - unfold Put. by rewrite delete_insert_eq.
  - apply Put_lookup.
  - apply expired_iff. exists t. done.
Qed.

Lemma Put_in_the_past_then_Get_witness :
  let s : store := {["k" := {| Data := [x02]; Expires := None |}]} in
  Get "k" 5 (Put "k" [x01] (Some 4%Z) s) = (([], false), ∅).
Proof.
  intros s. rewrite Put_in_the_past_then_Get by lia. reflexivity.
Defined.

(** ** The janitor, over its whole run *)

Lemma janitor_tick_lookup (clock : string → Time) (s : store) (k : string) :
  janitor_tick clock s !! k =
  match s !! k with
  | Some obj => if expired (clock k) obj then None else Some obj
  | None => None
  end.
Proof. unfold janitor_tick. by apply sweep_in_order_lookup. Qed.

(** The janitor only ever removes entries that carry an expiry: whatever
    ticks it receives, the map it leaves is a part of the map it found,
    and every entry without expiry is still there. *)
Theorem janitor_only_removes_expiring (signals : list signal) (s : store) :
  janitor signals s ⊆ s
  ∧ (∀ k obj, s !! k = Some obj → Expires obj = None →
       janitor signals s !! k = Some obj).
Proof.
  revert s. induction signals as [|[clock|] signals IH]; intros s;
    [done| |done].
  destruct (IH (janitor_tick clock s)) as [Hsub Hkeep]. simpl. split.
  - etrans; [exact Hsub|]. apply map_subseteq_spec. intros k obj.
    rewrite janitor_tick_lookup.
    destruct (s !! k) as [obj'|]; [|done].
    by destruct (expired (clock k) obj').
  - intros k obj Hk Hnone. apply Hkeep; [|done].
    rewrite janitor_tick_lookup, Hk. unfold expired. by rewrite Hnone.
Qed.

Lemma janitor_only_removes_expiring_witness :
  let forever := {| Data := [x01]; Expires := None |} in
  let s : store :=
    <["a" := forever]> {["b" := {| Data := []; Expires := Some 3%Z |}]} in
  janitor [Tick (λ _, 5%Z); Tick (λ _, 9%Z)] s !! "a" = Some forever.
Proof.
  intros forever s.
  destruct (janitor_only_removes_expiring
              [Tick (λ _, 5%Z); Tick (λ _, 9%Z)] s) as [_ Hkeep].
  apply Hkeep; reflexivity.
Defined.

(** Once the context is done the janitor returns at once: no tick behind
    the cancellation is served and there is no last sweep. *)
Theorem janitor_stops_at_Done (before rest : list signal) (s : store) :
  janitor (before ++ Done :: rest) s = janitor before s.
Proof.
  revert s. induction before as [|[clock|] before IH]; intros s; simpl; auto.
Qed.

(** A tick and a read commute on the map: the janitor's sweep followed by
    [Get], and [Get] followed by the sweep, leave the same map. *)
Theorem Get_janitor_tick_commute (key : string) (now : Time)
    (clock : string → Time) (s : store) :
  (Get key now (janitor_tick clock s)).2
  = janitor_tick clock (Get key now s).2.
Proof.
  apply map_eq. intros k. rewrite janitor_tick_lookup.
  unfold Get. rewrite janitor_tick_lookup.
  destruct (s !! key) as [obj|] eqn:Hk; simpl.
  - destruct (expired (clock key) obj) eqn:Hc; simpl.
    + rewrite janitor_tick_lookup.
      destruct (expired now obj) eqn:He; simpl.
      * destruct (decide (k = key)) as [->|Hne].
        -- by rewrite Hk, Hc, lookup_delete_eq.
        -- by rewrite lookup_delete_ne.
      * done.
    + destruct (expired now obj) eqn:He; simpl.
      * destruct (decide (k = key)) as [->|Hne].
        -- by rewrite !lookup_delete_eq.
        -- by rewrite !lookup_delete_ne, janitor_tick_lookup by done.
      * by rewrite janitor_tick_lookup.
  - by rewrite janitor_tick_lookup.
Qed.

(** The janitor is invisible to readers: after any run of it whose clock
    readings for a key are not later than the reader's, [Get] of that key
    answers exactly as it would have on the unswept map. *)
Theorem Get_after_janitor (key : string) (now : Time)
    (signals : list signal) (s : store) :
  Forall (λ sig, match sig with
                 | Tick clock => (clock key ≤ now)%Z
                 | Done => True
                 end) signals →
  (Get key now (janitor signals s)).1 = (Get key now s).1.
Proof.
  revert s. induction signals as [|[clock|] signals IH]; intros s Hclk;
    [done| |done].
  apply Forall_cons in Hclk as [Hle Hclk]. simpl.
  rewrite IH by done. unfold Get. rewrite janitor_tick_lookup.
  destruct (s !! key) as [obj|]; [|done].
  destruct (expired (clock key) obj) eqn:Hc.
  - by rewrite (expired_mono _ _ _ Hle Hc).
  - by destruct (expired now obj).
Qed.

Lemma Get_after_janitor_witness :
  let s : store :=
    <["a" := {| Data := [x01]; Expires := Some 7%Z |}]>
      {["b" := {| Data := []; Expires := Some 3%Z |}]} in
  (Get "a" 6 (janitor [Tick (λ _, 5%Z); Tick (λ _, 6%Z)] s)).1
  = ([x01], true).
Proof.
  intros s.
  rewrite (Get_after_janitor "a" 6 [Tick (λ _, 5%Z); Tick (λ _, 6%Z)] s).
  - reflexivity.
  - repeat constructor; simpl; lia.
Defined.

(** A later tick absorbs an earlier one: sweeping at clock readings
    [clock] and then at readings [clock'] that are nowhere earlier leaves
    the map a single sweep at [clock'] leaves.  A sweep repeated at the
    same readings changes nothing. *)
Theorem janitor_later_tick_absorbs (clock clock' : string → Time)
    (s : store) :
  (∀ k, (clock k ≤ clock' k)%Z) →
  janitor [Tick clock; Tick clock'] s = janitor [Tick clock'] s.
Proof.
  intros Hle. simpl. apply map_eq. intros k.
  rewrite !janitor_tick_lookup.
  destruct (s !! k) as [obj|]; [|done].
  destruct (expired (clock k) obj) eqn:Hc.
  - by rewrite (expired_mono _ _ _ (Hle k) Hc).
  - done.
Qed.

Lemma janitor_later_tick_absorbs_witness :
  let s : store := {["b" := {| Data := []; Expires := Some 3%Z |}]} in
  janitor [Tick (λ _, 5%Z); Tick (λ _, 5%Z)] s = janitor [Tick (λ _, 5%Z)] s.
Proof.
  intros s. apply janitor_later_tick_absorbs. intros k. simpl. lia.
Defined.

(** ** Snapshots: what a save leaves on the file system *)

Lemma Sprintf_inj (name : string) (f g : Format) :
  Sprintf name f = Sprintf name g → f = g.
Proof.
  unfold Sprintf. induction name as [|c name IH]; simpl.
  - intros Heq. injection Heq as Heq. exact Heq.
  - intros Heq. injection Heq as Heq. by apply IH.
Qed.

Section SaveOutcome.
Context (json gob : Codec).

Lemma save_frame (name : string) (format : Format) (s : store) (d : disk)
    (path : string) :
  path ≠ Sprintf name format →
  (save json gob name format s d).2 !! path = d !! path.
Proof.
  intros Hne. unfold save, os_Create, write_file.
  destruct (d !! Sprintf name format) as [[old|]|]; [|done|];
    repeat case_decide;
    repeat match goal with
           | |- context [Encode ?c s] => destruct (Encode c s) as [? []]
           end; simpl; by rewrite ?lookup_insert_ne by done.
Qed.

Lemma save_keeps_access (name : string) (format : Format) (s : store)
    (d : disk) :
  (save json gob name format s d).2 !! Sprintf name format = Some NoAccess
  ↔ d !! Sprintf name format = Some NoAccess.
Proof.
  unfold save, os_Create, write_file.
  destruct (d !! Sprintf name format) as [[old|]|] eqn:Hd; [|done|];
    repeat case_decide;
    repeat match goal with
           | |- context [Encode ?c s] => destruct (Encode c s) as [? []]
           end; simpl; rewrite ?lookup_insert_eq; split; done.
Qed.

Lemma save_count (name : string) (format : Format) (s : store) (d : disk) :
  ((save json gob name format s d).1.2 = None
   ∧ (save json gob name format s d).1.1 = size s)
  ∨ ((save json gob name format s d).1.2 ≠ None
     ∧ (save json gob name format s d).1.1 = 0%nat).
Proof.
  unfold save. destruct (os_Create d (Sprintf name format)) as [d1|];
    [|right; done].
  repeat case_decide;
    repeat match goal with
           | |- context [Encode ?c s] => destruct (Encode c s) as [? []]
           end; simpl; auto.
Qed.
End SaveOutcome.

(** Whatever its outcome, [save] returns either a nil error and the size
    of the map, or an error and zero; it touches no path but
    [<name>.<format>]; and it neither makes that path accessible nor
    inaccessible. *)
Theorem save_outcome (json gob : Codec) (name : string) (format : Format)
    (s : store) (d : disk) :
  (((save json gob name format s d).1.2 = None
    ∧ (save json gob name format s d).1.1 = size s)
   ∨ ((save json gob name format s d).1.2 ≠ None
      ∧ (save json gob name format s d).1.1 = 0%nat))
  ∧ (∀ path, path ≠ Sprintf name format →
       (save json gob name format s d).2 !! path = d !! path)
  ∧ ((save json gob name format s d).2 !! Sprintf name format = Some NoAccess
     ↔ d !! Sprintf name format = Some NoAccess)
  ∧ ((save json gob name format s d).1.2 = Some CreateFileError
     ↔ d !! Sprintf name format = Some NoAccess).
Proof.
  split; [apply save_count|].
  split; [intros path; apply save_frame|].
  split; [apply save_keeps_access|].
  unfold save, os_Create.
  destruct (d !! Sprintf name format) as [[old|]|]; [|done|];
    repeat case_decide;
    repeat match goal with
           | |- context [Encode ?c s] => destruct (Encode c s) as [? []]
           end; simpl; split; done.
Qed.

(** [save] truncates the file before it encodes: when the encoder fails,
    the snapshot that was in [<name>.<format>] is gone, replaced by what
    the encoder had written, and [save] returns zero and the encode
    error. *)
Theorem save_encode_error_loses_snapshot (json gob : Codec) (name : string)
    (format : Format) (s : store) (d : disk) (old partial : list byte)
    (e : error) :
  d !! Sprintf name format = Some (File old) →
  (format = JSONFormat ∧ Encode json s = (partial, false)
   ∧ e = JSONEncodeError)
  ∨ (format = GobFormat ∧ Encode gob s = (partial, false)
     ∧ e = GobEncodeError) →
  save json gob name format s d
  = ((0%nat, Some e), <[Sprintf name format := File partial]> d).
Proof.
  intros Hold [(-> & Henc & ->) | (-> & Henc & ->)].
  - rewrite (save_json json gob name s d partial false); [done| |done].
    by rewrite Hold.
  - rewrite (save_gob json gob name s d partial false); [done| |done].
    by rewrite Hold.
Qed.

Lemma save_encode_error_loses_snapshot_witness :
  let failing := {| Encode := λ _, ([x07], false); Decode := Wire.decode |} in
  let d : disk := {["snap.json" := File [x01; x00; x00; x00]]} in
  save failing Wire.codec "snap" JSONFormat ∅ d
  = ((0%nat, Some JSONEncodeError), {["snap.json" := File [x07]]}).
Proof.
  intros failing d.
  rewrite (save_encode_error_loses_snapshot failing Wire.codec "snap"
             JSONFormat ∅ d [x01; x00; x00; x00] [x07] JSONEncodeError).
  - reflexivity.
  - reflexivity.
  - left. repeat split.
Defined.

(** ** The saver *)

Section SaverFacts.
Context (json gob : Codec).

Lemma saver_frame (p : Persistent) (wakeups : list wakeup) (d : disk)
    (path : string) :
  path ≠ Sprintf (PName p) (PFormat p) →
  (saver json gob p wakeups d).1 !! path = d !! path.
Proof.
  intros Hne. revert d.
  induction wakeups as [|[s|s] wakeups IH]; intros d; simpl; [done| |].
  - pose proof (save_frame json gob (PName p) (PFormat p) s d path Hne)
      as Hsave.
    destruct (save json gob (PName p) (PFormat p) s d) as [[cnt err] d1].
    specialize (IH d1).
    destruct (saver json gob p wakeups d1) as [d2 lines]. simpl in *.
    by rewrite IH.
  - pose proof (save_frame json gob (PName p) (PFormat p) s d path Hne)
      as Hsave.
    by destruct (save json gob (PName p) (PFormat p) s d) as [[cnt err] d1].
Qed.

Lemma saver_keeps_access (p : Persistent) (wakeups : list wakeup)
    (d : disk) :
  d !! Sprintf (PName p) (PFormat p) ≠ Some NoAccess →
  (saver json gob p wakeups d).1 !! Sprintf (PName p) (PFormat p)
  ≠ Some NoAccess.
Proof.
  revert d. induction wakeups as [|[s|s] wakeups IH]; intros d Hd; simpl;
    [done| |].
  - pose proof (save_keeps_access json gob (PName p) (PFormat p) s d)
      as Hsave.
    destruct (save json gob (PName p) (PFormat p) s d) as [[cnt err] d1].
    assert (d1 !! Sprintf (PName p) (PFormat p) ≠ Some NoAccess) as Hd1.
    { simpl in Hsave. by rewrite Hsave. }
    specialize (IH d1 Hd1).
    by destruct (saver json gob p wakeups d1) as [d2 lines].
  - pose proof (save_keeps_access json gob (PName p) (PFormat p) s d)
      as Hsave.
    destruct (save json gob (PName p) (PFormat p) s d) as [[cnt err] d1].
    simpl in *. by rewrite Hsave.
Qed.

(** The saver up to its cancellation: the ticks before it are served in
    turn, then the last save runs on what they left. *)
Lemma saver_ticks_then_Done (p : Persistent) (before rest : list wakeup)
    (s : store) (d : disk) :
  Forall (λ w, match w with TickAt _ => True | DoneAt _ => False end) before →
  (saver json gob p (before ++ DoneAt s :: rest) d).1
  = (save json gob (PName p) (PFormat p) s
       (saver json gob p before d).1).2
  ∧ last (saver json gob p (before ++ DoneAt s :: rest) d).2
    = Some (match (save json gob (PName p) (PFormat p) s
                     (saver json gob p before d).1).1.2 with
            | Some e => LogSaveOnExitError e
            | None =>
                LogSavedOnExit
                  (save json gob (PName p) (PFormat p) s
                     (saver json gob p before d).1).1.1 (PName p)
            end).
Proof.
  intros Hticks. revert d.
  induction before as [|[s0|s0] before IH]; intros d; simpl.
  - by destruct (save json gob (PName p) (PFormat p) s d) as [[cnt err] d1].
  - apply Forall_cons in Hticks as [_ Hticks]. specialize (IH Hticks).
    destruct (save json gob (PName p) (PFormat p) s0 d) as [[cnt err] d1].
    specialize (IH d1).
    destruct (saver json gob p (before ++ DoneAt s :: rest) d1)
      as [d2 lines].
    destruct (saver json gob p before d1) as [d3 lines3]. simpl in *.
    destruct IH as [-> Hlast]. split; [done|].
    destruct lines as [|l lines]; [discriminate|]. done.
  - by apply Forall_cons in Hticks as [[] _].
Qed.
(** On a successful last save the file holds what the encoder wrote. *)
Lemma saver_flush_disk (p : Persistent) (before rest : list wakeup)
    (s : store) (d : disk) (content : list byte) :
  Forall (λ w, match w with TickAt _ => True | DoneAt _ => False end) before →
  d !! Sprintf (PName p) (PFormat p) ≠ Some NoAccess →
  (PFormat p = JSONFormat ∧ Encode json s = (content, true))
  ∨ (PFormat p = GobFormat ∧ Encode gob s = (content, true)) →
  save json gob (PName p) (PFormat p) s (saver json gob p before d).1
  = ((size s, None),
     <[Sprintf (PName p) (PFormat p) := File content]>
       (saver json gob p before d).1)
  ∧ (saver json gob p (before ++ DoneAt s :: rest) d).1
      !! Sprintf (PName p) (PFormat p) = Some (File content).
Proof.
  intros Hticks Hd Henc.
  destruct (saver_ticks_then_Done p before rest s d Hticks) as [Hdisk _].
  pose proof (saver_keeps_access p before d Hd) as Hd1.
  assert (save json gob (PName p) (PFormat p) s
            (saver json gob p before d).1
          = ((size s, None),
             <[Sprintf (PName p) (PFormat p) := File content]>
               (saver json gob p before d).1)) as Hsave.
  { destruct Henc as [[Hf Henc] | [Hf Henc]]; rewrite Hf in *.
    - by rewrite (save_json json gob _ s _ content true).
    - by rewrite (save_gob json gob _ s _ content true). }
  split; [done|].
  rewrite Hdisk, Hsave. simpl. apply lookup_insert_eq.
Qed.
End SaverFacts.

(** The saver writes one file only, and its last act is the save on
    cancellation: whatever ticks came first and whether their saves
    worked, if the file can be created and the encoder succeeds on the map
    held at cancellation, the file then holds that map encoded, the line
    logged last reports the size of the map, every other path is
    untouched, and the wakeups behind the cancellation are not served. *)
Theorem saver_final_flush (json gob : Codec) (p : Persistent)
    (before rest : list wakeup) (s : store) (d : disk)
    (content : list byte) :
  Forall (λ w, match w with TickAt _ => True | DoneAt _ => False end) before →
  d !! Sprintf (PName p) (PFormat p) ≠ Some NoAccess →
  (PFormat p = JSONFormat ∧ Encode json s = (content, true))
  ∨ (PFormat p = GobFormat ∧ Encode gob s = (content, true)) →
  (saver json gob p (before ++ DoneAt s :: rest) d).1
    !! Sprintf (PName p) (PFormat p) = Some (File content)
  ∧ last (saver json gob p (before ++ DoneAt s :: rest) d).2
    = Some (LogSavedOnExit (size s) (PName p))
  ∧ (∀ path, path ≠ Sprintf (PName p) (PFormat p) →
       (saver json gob p (before ++ DoneAt s :: rest) d).1 !! path
       = d !! path).
Proof.
  intros Hticks Hd Henc.
  destruct (saver_ticks_then_Done json gob p before rest s d Hticks)
    as [_ Hlast].
  destruct (saver_flush_disk json gob p before rest s d content
              Hticks Hd Henc) as [Hsave Hfile].
  rewrite Hsave in Hlast. simpl in Hlast.
  split; [done|]. split; [done|].
  intros path Hne. by apply saver_frame.
Qed.

Lemma saver_final_flush_witness :
  let obj := {| Data := [x01]; Expires := None |} in
  let p := {| PFormat := GobFormat; PInterval := Second; PName := "snap" |} in
  (saver Wire.codec Wire.codec p
     [TickAt ∅; DoneAt {["k" := obj]}; TickAt ∅] ∅).1 !! "snap.gob"
  = Some (File (Wire.put_entry ("k", obj))).
Proof.
  intros obj p.
  destruct (saver_final_flush Wire.codec Wire.codec p [TickAt ∅] [TickAt ∅]
              {["k" := obj]} ∅ (Wire.put_entry ("k", obj)))
    as [Hfile _].
  - repeat constructor.
  - discriminate.
  - right. split; reflexivity.
  - exact Hfile.
Defined.

(** Shutdown keeps the data: after the saver of a store has made its save
    on cancellation, with either supported format, a store constructed
    with the same [Persistent] holds exactly the map the first one held at
    cancellation, provided the file could be created, the encoder
    succeeded and decodes back what it encoded, and, for json, no
    [<name>.gob] lies beside the snapshot. *)
Theorem New_after_saver_restores (json gob : Codec) (p : Persistent)
    (before rest : list wakeup) (s : store) (d : disk) :
  let q := with_defaults p in
  Forall (λ w, match w with TickAt _ => True | DoneAt _ => False end) before →
  d !! Sprintf (PName q) (PFormat q) ≠ Some NoAccess →
  (PFormat q = GobFormat ∧ (Encode gob s).2 = true
   ∧ Decode gob (Encode gob s).1 ∅ = (s, true))
  ∨ (PFormat q = JSONFormat ∧ (Encode json s).2 = true
     ∧ Decode json (Encode json s).1 ∅ = (s, true)
     ∧ d !! Sprintf (PName q) GobFormat = None) →
  storage (New json gob
             (saver json gob q (before ++ DoneAt s :: rest) d).1
             [WithPersistent p]) = s.
Proof.
  intros q Hticks Hd Hfmt.
  assert (storage (New json gob
            (saver json gob q (before ++ DoneAt s :: rest) d).1
            [WithPersistent p])
          = (load json gob (PName q)
               ∅ (saver json gob q (before ++ DoneAt s :: rest) d).1).2)
    as ->.
  { unfold New. simpl. fold (PName q).
    by destruct (load json gob _ ∅ _) as [[cnt err] st1]. }
  destruct Hfmt as [(Hf & Hok & Hrt) | (Hf & Hok & Hrt & Hnogob)].
  - destruct (saver_flush_disk json gob q before rest s d
                (Encode gob s).1 Hticks Hd) as [_ Hfile].
    { right. split; [done|]. by destruct (Encode gob s) as [c []]. }
    rewrite Hf in Hfile.
    by rewrite (load_gob_file json gob _ ∅ _ _ Hfile), Hrt.
  - destruct (saver_flush_disk json gob q before rest s d
                (Encode json s).1 Hticks Hd) as [_ Hfile].
    { left. split; [done|]. by destruct (Encode json s) as [c []]. }
    rewrite Hf in Hfile.
    rewrite (load_json_file json gob _ ∅ _ (Encode json s).1); [|  |done].
    + by rewrite Hrt.
    + rewrite saver_frame; [done|]. rewrite Hf.
      intros Heq. by apply Sprintf_inj in Heq.
Qed.

Lemma New_after_saver_restores_witness :
  let obj := {| Data := [x01]; Expires := Some 9%Z |} in
  let p := {| PFormat := ""; PInterval := 0; PName := "" |} in
  storage (New Wire.codec Wire.codec
             (saver Wire.codec Wire.codec (with_defaults p)
                [DoneAt {["k" := obj]}] ∅).1
             [WithPersistent p]) = {["k" := obj]}.
Proof.
  intros obj p.
  apply (New_after_saver_restores Wire.codec Wire.codec p [] []
           {["k" := obj]} ∅).
  - constructor.
  - discriminate.
  - left. split; [reflexivity|]. split; [reflexivity|].
    vm_compute. reflexivity.
Defined.

(** A format that is neither json nor gob loses the data without a sign:
    the saver logs that it saved the whole map, yet a store constructed
    afterwards with the same [Persistent] starts empty, when no
    [<name>.gob] or [<name>.json] was there before. *)
Theorem New_after_saver_unknown_format (json gob : Codec) (p : Persistent)
    (before rest : list wakeup) (s : store) (d : disk) :
  let q := with_defaults p in
  Forall (λ w, match w with TickAt _ => True | DoneAt _ => False end) before →
  PFormat q ≠ JSONFormat → PFormat q ≠ GobFormat →
  d !! Sprintf (PName q) (PFormat q) ≠ Some NoAccess →
  d !! Sprintf (PName q) GobFormat = None →
  d !! Sprintf (PName q) JSONFormat = None →
  last (saver json gob q (before ++ DoneAt s :: rest) d).2
  = Some (LogSavedOnExit (size s) (PName q))
  ∧ storage (New json gob
               (saver json gob q (before ++ DoneAt s :: rest) d).1
               [WithPersistent p]) = ∅.
Proof.
  intros q Hticks Hjson Hgob Hd Hnogob Hnojson. split.
  - destruct (saver_ticks_then_Done json gob q before rest s d Hticks)
      as [_ Hlast].
    pose proof (saver_keeps_access json gob q before d Hd) as Hd1.
    rewrite Hlast. unfold save. rewrite (os_Create_ok _ _ Hd1).
    by rewrite !decide_False by done.
  - unfold New. simpl. fold (PName q).
    rewrite (load_no_file json gob (PName q) ∅).
    + done.
    + rewrite saver_frame; [done|].
      intros Heq. apply Sprintf_inj in Heq. congruence.
    + rewrite saver_frame; [done|].
      intros Heq. apply Sprintf_inj in Heq. congruence.
Qed.

Lemma New_after_saver_unknown_format_witness :
  let obj := {| Data := [x01]; Expires := None |} in
  let p := {| PFormat := "yaml"; PInterval := 0; PName := "snap" |} in
  last (saver Wire.codec Wire.codec (with_defaults p)
          [DoneAt {["k" := obj]}] ∅).2
  = Some (LogSavedOnExit 1 "snap")
  ∧ storage (New Wire.codec Wire.codec
               (saver Wire.codec Wire.codec (with_defaults p)
                  [DoneAt {["k" := obj]}] ∅).1
               [WithPersistent p]) = ∅.
Proof.
  intros obj p.
  destruct (New_after_saver_unknown_format Wire.codec Wire.codec p [] []
              {["k" := obj]} ∅) as [Hlast Hnew];
    [constructor | discriminate | discriminate | discriminate
    | reflexivity | reflexivity |].
  split; [exact Hlast | exact Hnew].
Defined.

(** The command saves json and loads gob first: its store is configured
    to save to [go-persista.json], so its saver never touches
    [go-persista.gob]; if that file is there, every start of the command
    loads it, whatever the saver has written since. *)
Theorem main_loads_gob_over_its_own_json (json gob : Codec) (d : disk)
    (wakeups : list wakeup) (content : list byte) :
  let cfg := {| PFormat := JSONFormat; PInterval := (15 * Second)%Z;
                PName := "go-persista" |} in
  d !! "go-persista.gob" = Some (File content) →
  started (New json gob d main_options) = [SaverTask cfg]
  ∧ storage (New json gob (saver json gob cfg wakeups d).1 main_options)
    = (Decode gob content ∅).1.
Proof.
  intros cfg Hgob. split.
  - unfold New, main_options. simpl.
    by destruct (load json gob _ ∅ d) as [[cnt err] st1].
  - unfold New, main_options. simpl.
    assert ((saver json gob cfg wakeups d).1 !! Sprintf "go-persista" GobFormat
            = Some (File content)) as Hkept.
    { rewrite saver_frame; [exact Hgob | discriminate]. }
    rewrite (load_gob_file json gob "go-persista" ∅ _ content Hkept).
    destruct (Decode gob content ∅) as [s' []]; done.
Qed.

Lemma main_loads_gob_over_its_own_json_witness :
  let old := {| Data := [x0f]; Expires := None |} in
  let new := {| Data := [x01]; Expires := None |} in
  let cfg := {| PFormat := JSONFormat; PInterval := (15 * Second)%Z;
                PName := "go-persista" |} in
  let d : disk := {["go-persista.gob" := File (Wire.put_entry ("k", old))]} in
  storage (New Wire.codec Wire.codec
             (saver Wire.codec Wire.codec cfg [DoneAt {["k" := new]}] d).1
             main_options) = {["k" := old]}.
Proof.
  intros old new cfg d.
  destruct (main_loads_gob_over_its_own_json Wire.codec Wire.codec d
              [DoneAt {["k" := new]}] (Wire.put_entry ("k", old)))
    as [_ Hload]; [reflexivity|].
  etrans; [exact Hload|]. vm_compute. reflexivity.
Defined.

(** ** The constructor and its options *)

Lemma load_count_fresh (json gob : Codec) (name : string) (d : disk) :
  (load json gob name ∅ d).1.2 = None →
  (load json gob name ∅ d).1.1 = size (load json gob name ∅ d).2.
Proof.
  unfold load, load_decode, os_Open.
  destruct (d !! Sprintf name GobFormat) as [[c|]|];
    [| |destruct (d !! Sprintf name JSONFormat) as [[c|]|]];
    simpl; repeat case_decide; try done;
    match goal with
    | |- context [Decode ?c ?x ∅] => by destruct (Decode c x ∅) as [? []]
    end.
Qed.

(** Whatever the options, the count [New] logs as loaded is the number of
    entries the store it returns holds. *)
Theorem New_logs_what_it_holds (json gob : Codec) (d : disk)
    (opts : list Option) (cnt : nat) (name : string) :
  LogLoaded cnt name ∈ logged (New json gob d opts) →
  cnt = size (storage (New json gob d opts)).
Proof.
  unfold New.
  destruct (opt_janitor _) as [j|];
    (destruct (opt_persistent _) as [p|];
     [|simpl; intros Hin; repeat (apply elem_of_cons in Hin as [Hin|Hin];
                                   [discriminate|]);
       by apply not_elem_of_nil in Hin]);
    pose proof (load_count_fresh json gob (PName p) d) as Hcount;
    destruct (load json gob (PName p) ∅ d) as [[c [e|]] st1]; simpl in *;
    intros Hin;
    repeat (apply elem_of_cons in Hin as [Hin|Hin];
            [try discriminate; injection Hin as -> _; by apply Hcount|]);
    by apply not_elem_of_nil in Hin.
Qed.

Lemma New_logs_what_it_holds_witness :
  let obj := {| Data := [x01]; Expires := None |} in
  let d : disk := {["go-persista.gob" := File (Wire.put_entry ("a", obj))]} in
  let p := {| PFormat := ""; PInterval := 0; PName := "" |} in
  1%nat = size (storage (New Wire.codec Wire.codec d [WithPersistent p])).
Proof.
  intros obj d p.
  apply (New_logs_what_it_holds Wire.codec Wire.codec d [WithPersistent p]
           1%nat "go-persista").
  vm_compute. left.
Defined.



(** Options of different kinds do not interfere and options of the same
    kind override: a janitor option and a persistence option give the
    same store in either order, with the janitor started before the
    saver; and the last [WithPersistent] decides which snapshot is loaded
    and which saver runs, whatever options precede it. *)
Theorem New_options_compose (json gob : Codec) (d : disk) (j : Janitor)
    (p : Persistent) (opts : list Option) :
  New json gob d [WithJanitor j; WithPersistent p]
  = New json gob d [WithPersistent p; WithJanitor j]
  ∧ (∃ j' p', started (New json gob d [WithJanitor j; WithPersistent p])
              = [JanitorTask j'; SaverTask p'])
  ∧ storage (New json gob d (opts ++ [WithPersistent p]))
    = storage (New json gob d [WithPersistent p])
  ∧ last (started (New json gob d (opts ++ [WithPersistent p])))
    = last (started (New json gob d [WithPersistent p])).
Proof.
  split; [reflexivity|]. split.
  { unfold New. simpl.
    destruct (load json gob _ ∅ d) as [[cnt err] st1]. simpl. eauto. }
  unfold New. rewrite foldl_app. simpl.
  destruct (load json gob _ ∅ d) as [[cnt err] st1]. simpl.
  split; [done|]. by rewrite last_snoc.
Qed.

(** ** The request handlers *)

Module ServerFacts.
Import Server.

Lemma strip_prefix_app (prefix rest : string) :
  strip_prefix prefix (prefix +:+ rest) = Some rest.
Proof.
  induction prefix as [|a prefix IH]; [done|].
  change (String a prefix +:+ rest) with (String a (prefix +:+ rest)).
  simpl. by rewrite Ascii.eqb_refl.
Qed.

Lemma strip_prefix_Some (prefix s rest : string) :
  strip_prefix prefix s = Some rest → s = prefix +:+ rest.
Proof.
  revert s. induction prefix as [|a prefix IH]; intros s; simpl.
  - by intros [= ->].
  - destruct s as [|b s]; [discriminate|].
    destruct (Ascii.eqb a b) eqn:Hab; [|discriminate].
    apply Ascii.eqb_eq in Hab as ->. intros Hs. rewrite (IH s Hs). done.
Qed.

Lemma TrimPrefix_app (prefix rest : string) :
  TrimPrefix (prefix +:+ rest) prefix = rest.
Proof. unfold TrimPrefix. by rewrite strip_prefix_app. Qed.

Lemma app_empty_r (s : string) : s +:+ "" = s.
Proof.
  induction s as [|a s IH]; [done|].
  change (String a (s +:+ "") = String a s). by rewrite IH.
Qed.

Lemma TrimPrefix_empty (s prefix : string) :
  TrimPrefix s prefix = "" ↔ s = "" ∨ s = prefix.
Proof.
  unfold TrimPrefix. split.
  - destruct (strip_prefix prefix s) as [rest|] eqn:Hs.
    + intros ->. apply strip_prefix_Some in Hs. right.
      by rewrite Hs, app_empty_r.
    + auto.
  - intros [-> | ->].
    + by destruct prefix.
    + rewrite <- (app_empty_r prefix) at 2. by rewrite strip_prefix_app.
Qed.

Lemma object_request_key (method key expires : string)
    (body : option (list byte)) :
  TrimPrefix (Path (object_request method key expires body)) "/objects/"
  = key.
Proof. apply (TrimPrefix_app "/objects/"). Qed.

(** A request is turned away before it reaches the store when its path
    is [/objects/] alone (or empty), with 400, and otherwise when its
    method is neither GET nor PUT, with 405.  Neither the map nor the
    counters change. *)
Theorem HandleObject_turned_away (Parse : string → option Time)
    (now : Time) (r : Request) (s : store) (m : Counters) :
  ((Path r = "" ∨ Path r = "/objects/") →
     HandleObject Parse now r s m
     = (http_Error "Key is required" StatusBadRequest, (s, m)))
  ∧ (Path r ≠ "" → Path r ≠ "/objects/" →
     Method r ≠ "GET" → Method r ≠ "PUT" →
     HandleObject Parse now r s m
     = (http_Error "Unsupported method" StatusMethodNotAllowed, (s, m))).
Proof.
  unfold HandleObject. split.
  - intros Hpath. apply TrimPrefix_empty in Hpath.
    by rewrite decide_True.
  - intros Hne Hne' Hget Hput.
    rewrite decide_False.
    + by rewrite !decide_False by done.
    + intros Hkey. apply TrimPrefix_empty in Hkey as [?|?]; done.
Qed.

Lemma HandleObject_turned_away_witness :
  let r := {| Method := "DELETE"; Path := "/objects/k";
              Header := λ _, ""; Body := None |} in
  let s : store := {["k" := {| Data := [x01]; Expires := None |}]} in
  let m := {| put_objects_total := 3; get_objects_total := 4 |} in
  (HandleObject (λ _, None) 0 (object_request "GET" "" "" None) s m).2 = (s, m)
  ∧ HandleObject (λ _, None) 0 r s m
    = (http_Error "Unsupported method" 405, (s, m)).
Proof.
  intros r s m.
  destruct (HandleObject_turned_away (λ _, None) 0
              (object_request "GET" "" "" None) s m) as [Hempty _].
  destruct (HandleObject_turned_away (λ _, None) 0 r s m) as [_ Hmethod].
  split.
  - rewrite Hempty; [reflexivity | right; reflexivity].
  - apply Hmethod; discriminate.
Defined.

(** What is PUT is what is GOT: a PUT of a body under a key, with no
    Expires header or with one that parses to an instant not before the
    later read, is answered 200, and a GET of that key is then answered
    200 with exactly that body as [application/json]; each of the two
    requests has advanced its own counter by one. *)
Theorem HandleObject_PUT_then_GET (Parse : string → option Time)
    (now now' : Time) (key expires : string) (data : list byte)
    (s : store) (m : Counters) :
  key ≠ "" →
  expires = "" ∨ (∃ t, Parse expires = Some t ∧ (now' ≤ t)%Z) →
  ∃ s1,
    HandleObject Parse now (object_request "PUT" key expires (Some data)) s m
    = ({| StatusCode := 200; ContentType := None; Written := [] |},
       (s1, {| put_objects_total := S (put_objects_total m);
               get_objects_total := get_objects_total m |}))
    ∧ HandleObject Parse now' (object_request "GET" key "" None) s1
        {| put_objects_total := S (put_objects_total m);
           get_objects_total := get_objects_total m |}
      = ({| StatusCode := 200; ContentType := Some "application/json";
            Written := data |},
         (s1, {| put_objects_total := S (put_objects_total m);
                 get_objects_total := S (get_objects_total m) |})).
Proof.
  intros Hkey Hexp.
  set (e := if decide (expires = "") then None else Parse expires).
  assert (putObjectHandler Parse
            (object_request "PUT" key expires (Some data)) key s
          = ({| StatusCode := 200; ContentType := None; Written := [] |},
             Put key data e s)) as Hput.
  { unfold putObjectHandler, e. simpl.
    destruct (decide (expires = "")) as [->|Hne]; [done|].
    destruct Hexp as [-> | (t & Ht & _)]; [done|]. by rewrite Ht. }
  assert (expired now' {| Data := data; Expires := e |} = false) as Hlive.
  { apply not_expired_iff. simpl. unfold e.
    destruct (decide (expires = "")) as [->|Hne]; [by left|].
    destruct Hexp as [-> | (t & Ht & Hle)]; [done|]. right. eauto. }
  exists (Put key data e s). split.
  - unfold HandleObject. rewrite object_request_key.
    rewrite decide_False by done. simpl. by rewrite Hput.
  - unfold HandleObject. rewrite object_request_key.
    rewrite decide_False by done. simpl. unfold getObjectHandler.
    by rewrite (Get_live key now' _ _ (Put_lookup key data e s) Hlive).
Qed.

Lemma HandleObject_PUT_then_GET_witness :
  let Parse := λ h : string, if decide (h = "T9") then Some 9%Z else None in
  let m := {| put_objects_total := 0; get_objects_total := 0 |} in
  (HandleObject Parse 8
     (object_request "GET" "k" "" None)
     (HandleObject Parse 5 (object_request "PUT" "k" "T9" (Some [x01])) ∅ m).2.1
     (HandleObject Parse 5 (object_request "PUT" "k" "T9" (Some [x01])) ∅ m).2.2).1
  = {| StatusCode := 200; ContentType := Some "application/json";
       Written := [x01] |}.
Proof.
  intros Parse m.
  destruct (HandleObject_PUT_then_GET Parse 5 8 "k" "T9" [x01] ∅ m)
    as (s1 & Hput & Hget).
  - discriminate.
  - right. exists 9%Z. split; [reflexivity | lia].
  - rewrite Hput. cbn [fst snd]. rewrite Hget. reflexivity.
Defined.

(** Every PUT that names a key is counted, stored or not.  It is answered
    200 and stored exactly when its Expires header is empty or parses and
    its body can be read; the expiry stored is the parsed one, or none for
    an empty header.  Otherwise it is answered 400 and the map is left as
    it was. *)
Theorem HandleObject_PUT_outcome (Parse : string → option Time)
    (now : Time) (r : Request) (s : store) (m : Counters) :
  TrimPrefix (Path r) "/objects/" ≠ "" →
  Method r = "PUT" →
  (HandleObject Parse now r s m).2.2
  = {| put_objects_total := S (put_objects_total m);
       get_objects_total := get_objects_total m |}
  ∧ ((∃ data,
        Body r = Some data
        ∧ (Header r ExpiresHeader = ""
           ∨ is_Some (Parse (Header r ExpiresHeader)))
        ∧ (HandleObject Parse now r s m).1
          = {| StatusCode := 200; ContentType := None; Written := [] |}
        ∧ (HandleObject Parse now r s m).2.1
          = Put (TrimPrefix (Path r) "/objects/") data
              (if decide (Header r ExpiresHeader = "") then None
               else Parse (Header r ExpiresHeader)) s)
     ∨ ((Body r = None
         ∨ (Header r ExpiresHeader ≠ ""
            ∧ Parse (Header r ExpiresHeader) = None))
        ∧ StatusCode (HandleObject Parse now r s m).1 = StatusBadRequest
        ∧ (HandleObject Parse now r s m).2.1 = s)).
Proof.
  intros Hkey Hput. unfold HandleObject.
  rewrite decide_False by done. rewrite Hput. simpl.
  unfold putObjectHandler.
  destruct (decide (Header r ExpiresHeader = "")) as [He|He].
  - destruct (Body r) as [data|]; simpl.
    + split; [done|]. left. exists data. auto.
    + split; [done|]. right. auto.
  - destruct (Parse (Header r ExpiresHeader)) as [t|] eqn:Ht.
    + destruct (Body r) as [data|]; simpl.
      * split; [done|]. left. exists data. eauto.
      * split; [done|]. right. auto.
    + simpl. split; [done|]. right. auto.
Qed.

Lemma HandleObject_PUT_outcome_witness :
  let m := {| put_objects_total := 0; get_objects_total := 0 |} in
  let s : store := {["k" := {| Data := [x01]; Expires := None |}]} in
  HandleObject (λ _, None) 0
    (object_request "PUT" "k" "yesterday" (Some [x02])) s m
  = (http_Error "Invalid expires header" 400,
     (s, {| put_objects_total := 1; get_objects_total := 0 |})).
Proof.
  intros m s.
  destruct (HandleObject_PUT_outcome (λ _, None) 0
              (object_request "PUT" "k" "yesterday" (Some [x02])) s m)
    as [Hcount _]; [discriminate | reflexivity |].
  reflexivity.
Defined.

(** Every GET that names a key is counted.  It is answered 404 exactly
    when the key is absent or its entry has expired, and the key is then
    not in the map afterwards; otherwise it is answered 200 with the
    stored data as [application/json], and the map is left as it was. *)
Theorem HandleObject_GET_outcome (Parse : string → option Time)
    (now : Time) (r : Request) (s : store) (m : Counters) :
  TrimPrefix (Path r) "/objects/" ≠ "" →
  Method r = "GET" →
  (HandleObject Parse now r s m).2.2
  = {| put_objects_total := put_objects_total m;
       get_objects_total := S (get_objects_total m) |}
  ∧ (((s !! TrimPrefix (Path r) "/objects/" = None
       ∨ ∃ obj, s !! TrimPrefix (Path r) "/objects/" = Some obj
                ∧ expired now obj = true)
      ∧ (HandleObject Parse now r s m).1
        = http_Error "Object not found" 404
      ∧ (HandleObject Parse now r s m).2.1
          !! TrimPrefix (Path r) "/objects/" = None)
     ∨ (∃ obj, s !! TrimPrefix (Path r) "/objects/" = Some obj
               ∧ expired now obj = false
               ∧ (HandleObject Parse now r s m).1
                 = {| StatusCode := 200;
                      ContentType := Some "application/json";
                      Written := Data obj |}
               ∧ (HandleObject Parse now r s m).2.1 = s)).
Proof.
  intros Hkey Hget. unfold HandleObject.
  rewrite decide_False by done. rewrite Hget. simpl.
  unfold getObjectHandler, Get.
  destruct (s !! TrimPrefix (Path r) "/objects/") as [obj|] eqn:Hk.
  - destruct (expired now obj) eqn:He; simpl.
    + split; [done|]. left. split; [eauto|]. split; [done|].
      apply lookup_delete_eq.
    + split; [done|]. right. exists obj. auto.
  - simpl. split; [done|]. left. auto.
Qed.

Lemma HandleObject_GET_outcome_witness :
  let m := {| put_objects_total := 0; get_objects_total := 0 |} in
  let s : store := {["k" := {| Data := [x01]; Expires := Some 3%Z |}]} in
  (HandleObject (λ _, None) 5 (object_request "GET" "k" "" None) s m).2.2
  = {| put_objects_total := 0; get_objects_total := 1 |}.
Proof.
  intros m s.
  destruct (HandleObject_GET_outcome (λ _, None) 5
              (object_request "GET" "k" "" None) s m)
    as [Hcount _]; [discriminate | reflexivity |].
  exact Hcount.
Defined.

(** A request touches at most the entry its path names: every other
    entry of the map is as before, whatever the method, the headers and
    the body.  No counter ever decreases and at most one of them grows, by
    one. *)
Theorem HandleObject_frame (Parse : string → option Time) (now : Time)
    (r : Request) (s : store) (m : Counters) :
  (∀ other, other ≠ TrimPrefix (Path r) "/objects/" →
     (HandleObject Parse now r s m).2.1 !! other = s !! other)
  ∧ (put_objects_total m ≤ put_objects_total (HandleObject Parse now r s m).2.2)%nat
  ∧ (get_objects_total m ≤ get_objects_total (HandleObject Parse now r s m).2.2)%nat
  ∧ (put_objects_total (HandleObject Parse now r s m).2.2
     + get_objects_total (HandleObject Parse now r s m).2.2
     ≤ S (put_objects_total m + get_objects_total m))%nat.
Proof.
  unfold HandleObject.
  destruct (decide (TrimPrefix (Path r) "/objects/" = "")) as [Hk|Hk].
  { simpl. repeat split; try done; lia. }
  destruct (decide (Method r = "GET")) as [Hg|Hg].
  { unfold getObjectHandler.
    pose proof (Get_other_keys (TrimPrefix (Path r) "/objects/") now s)
      as Hother.
    destruct (Get (TrimPrefix (Path r) "/objects/") now s)
      as [[data ok] s'].
    destruct ok; simpl in *; (split; [exact Hother|]); lia. }
  destruct (decide (Method r = "PUT")) as [Hp|Hp].
  { unfold putObjectHandler.
    assert (∀ e other data,
              other ≠ TrimPrefix (Path r) "/objects/" →
              Put (TrimPrefix (Path r) "/objects/") data e s !! other
              = s !! other) as Hput
      by (intros; by apply Put_lookup_ne).
    destruct (decide (Header r ExpiresHeader = ""));
      [|destruct (Parse (Header r ExpiresHeader))];
      try destruct (Body r); simpl;
      (split; [intros other Hne; by rewrite ?Hput by done|]); lia. }
  simpl. repeat split; try done; lia.
Qed.
End ServerFacts.

(** ** Get under the mutex, alone *)

Module RaceSequential.
Import Race.

(** Run alone, the statements of [Get] come to an end within five steps,
    having done what [Get] does: the goroutine has returned [Get]'s
    answer, the map is the one [Get] leaves, the read lock has been given
    back, and the map was written at most once. *)
Theorem Get_alone_under_mutex (k : string) (t : Time) (s : store) :
  ∃ n w,
    (n ≤ 5)%nat
    ∧ run (replicate n 0%nat) (calls 1 k t s) = Some w
    ∧ mem w = (Get k t s).2
    ∧ goroutines w
      = [{| key := k; now := t; at_pc := Returned (Get k t s).1 |}]
    ∧ mu w = {| readers := 0; writer := false |}
    ∧ (length (writes w) ≤ 1)%nat.
Proof.
  unfold Get. destruct (s !! k) as [obj|] eqn:Hk.
  - destruct (expired t obj) eqn:He.
    + exists 5%nat. eexists. split; [lia|]. split.
      { simpl. unfold step. simpl. rewrite Hk. simpl. rewrite He. simpl.
        reflexivity. }
      simpl. repeat split; lia.
    + exists 4%nat. eexists. split; [lia|]. split.
      { simpl. unfold step. simpl. rewrite Hk. simpl. rewrite He. simpl.
        reflexivity. }
      simpl. repeat split; lia.
  - exists 3%nat. eexists. split; [lia|]. split.
    { simpl. unfold step. simpl. rewrite Hk. simpl. reflexivity. }
    simpl. repeat split; lia.
Qed.

End RaceSequential.

Module RaceRuns.
Import Race.

Lemma Get_never_exclusive_witness :
  ∃ w,
    run [0; 1; 2; 0; 1; 2; 0; 1; 2; 0; 1; 2]%nat
      (calls 3 "k" 9 (Put "k" [x01] (Some 5%Z) ∅)) = Some w
    ∧ length (writes w) = 3%nat
    ∧ Forall (λ x, exclusive (held x) = false) (writes w).
Proof.
  eexists. split; [vm_compute; reflexivity|]. split; [reflexivity|].
  apply (RaceFacts.Get_never_exclusive 3 "k" 9 (Put "k" [x01] (Some 5%Z) ∅)
           [0; 1; 2; 0; 1; 2; 0; 1; 2; 0; 1; 2]%nat).
  vm_compute. reflexivity.
Defined.

End RaceRuns.

(** * The nil map *)

Lemma Nilable_Put_made (key : string) (data : list byte)
    (expires : option Time) (m : store) :
  Nilable.Put key data expires (Nilable.MadeMap m)
  = Some (Nilable.MadeMap (Put key data expires m)).
Proof. reflexivity. Qed.

Lemma Nilable_Get_made (key : string) (now : Time) (m : store) :
  Nilable.Get key now (Nilable.MadeMap m)
  = ((Get key now m).1, Nilable.MadeMap (Get key now m).2).
Proof. unfold Nilable.Get. by destruct (Get key now m) as [res m']. Qed.

Section NilableLoad.
Context (json gob : Nilable.Codec).



End NilableLoad.

(** C2: a json snapshot that is the document [null] makes the decoder set
    the map of the store to nil, without an error: [load] returns zero and
    nil, [New] logs zero objects loaded and returns the store.  The first
    [Put] on that store is an assignment to an entry of a nil map, a
    panic; a PUT request panics in the handler before any reply is
    written, its counter already advanced.  Reading is harmless. *)
Theorem Put_panics_after_null_snapshot :
  let d : disk :=
    {["go-persista.json" :=
        File (EncodingJSON.null_document ++ [x0a])%list]} in
  let st := Nilable.New EncodingJSON.codec EncodingGob.codec d main_options in
  let m := {| Server.put_objects_total := 0;
              Server.get_objects_total := 0 |} in
  Nilable.load EncodingJSON.codec EncodingGob.codec "go-persista"
    (Nilable.MadeMap ∅) d = ((0%nat, None), Nilable.NilMap)
  ∧ Nilable.storage st = Nilable.NilMap
  ∧ Nilable.logged st
    = [LogLoaded 0 "go-persista";
       LogPersistentEnabled
         {| PFormat := JSONFormat; PInterval := (15 * Second)%Z;
            PName := "go-persista" |}]
  ∧ Nilable.Put "k" [x01] None (Nilable.storage st) = None
  ∧ Nilable.Get "k" 0 (Nilable.storage st) = (([], false), Nilable.NilMap)
  ∧ Nilable.HandleObject (λ _, None) 0
      (Server.object_request "PUT" "k" "" (Some [x01]))
      (Nilable.storage st) m
    = (Nilable.Panicked,
       (Nilable.NilMap,
        {| Server.put_objects_total := 1; Server.get_objects_total := 0 |})).
Proof. repeat split. Qed.

(** [Put] panics on the nil map and on no other: on a map that has been
    made it succeeds, the key then holds exactly the object written, what
    it held before is erased, expiry included, the number of entries
    grows by one for a new key and not at all for an old one, every other
    key is untouched, and a [Get] for which the new entry has not expired
    returns the new data. *)
Theorem Put_panics_only_on_nil_map (key : string) (data : list byte)
    (expires : option Time) (g : Nilable.gomap) :
  (Nilable.Put key data expires g = None ↔ g = Nilable.NilMap)
  ∧ (∀ s, g = Nilable.MadeMap s →
       ∃ s',
         Nilable.Put key data expires g = Some (Nilable.MadeMap s')
         ∧ s' !! key = Some {| Data := data; Expires := expires |}
         ∧ size s' = match s !! key with
                     | Some _ => size s
                     | None => S (size s)
                     end
         ∧ (∀ other, other ≠ key → s' !! other = s !! other)
         ∧ (∀ now,
              expires = None ∨ (∃ t, expires = Some t ∧ (now ≤ t)%Z) →
              Nilable.Get key now (Nilable.MadeMap s')
              = ((data, true), Nilable.MadeMap s'))).
Proof.
  split.
  - destruct g as [|s]; simpl; split; done.
  - intros s ->. exists (Put key data expires s).
    split; [done|]. split; [apply Put_lookup|].
    split; [apply Put_size|].
    split; [intros other Hne; by apply Put_lookup_ne|].
    intros now Hlive. rewrite Nilable_Get_made.
    rewrite (Get_live key now _ {| Data := data; Expires := expires |}).
    + done.
    + apply Put_lookup.
    + by apply not_expired_iff.
Qed.

Lemma Put_panics_only_on_nil_map_witness :
  ∃ s',
    Nilable.Put "k" [x02] (Some 9%Z)
      (Nilable.MadeMap {["k" := {| Data := [x01]; Expires := None |}]})
    = Some (Nilable.MadeMap s')
    ∧ size s' = 1%nat
    ∧ Nilable.Get "k" 5 (Nilable.MadeMap s')
      = (([x02], true), Nilable.MadeMap s').
Proof.
  destruct (Put_panics_only_on_nil_map "k" [x02] (Some 9%Z)
              (Nilable.MadeMap {["k" := {| Data := [x01]; Expires := None |}]}))
    as [_ Hmade].
  destruct (Hmade {["k" := {| Data := [x01]; Expires := None |}]} eq_refl)
    as (s' & Hput & _ & Hsize & _ & Hget).
  exists s'. split; [exact Hput|]. split; [exact Hsize|].
  apply Hget. right. exists 9%Z. split; [reflexivity | lia].
Defined.

(** ** The handlers on a map that may be nil *)

(** On a map that has been made the handlers never panic and do what
    they do on the made map. *)
Lemma Nilable_HandleObject_made (Parse : string → option Time) (now : Time)
    (r : Server.Request) (s : store) (m : Server.Counters) :
  Nilable.HandleObject Parse now r (Nilable.MadeMap s) m
  = (Nilable.Answered (Server.HandleObject Parse now r s m).1,
     (Nilable.MadeMap (Server.HandleObject Parse now r s m).2.1,
      (Server.HandleObject Parse now r s m).2.2)).
Proof.
  unfold Nilable.HandleObject, Server.HandleObject.
  destruct (decide (Server.TrimPrefix (Server.Path r) "/objects/" = ""));
    [done|].
  destruct (decide (Server.Method r = "GET")).
  { unfold Nilable.getObjectHandler, Server.getObjectHandler, Nilable.Get.
    destruct (Get _ now s) as [[data ok] s']. by destruct ok. }
  destruct (decide (Server.Method r = "PUT")); [|done].
  unfold Nilable.putObjectHandler, Server.putObjectHandler.
  destruct (decide (Server.Header r Server.ExpiresHeader = ""));
    [|destruct (Parse (Server.Header r Server.ExpiresHeader))];
    try destruct (Server.Body r); done.
Qed.

(** On a store whose map has been made, what is PUT is what is GOT: a PUT
    of a body under a key, with no Expires header or with one that parses
    to an instant not before the later read, is answered 200, and a GET of
    that key is then answered 200 with exactly that body as
    [application/json]; each of the two requests has advanced its own
    counter by one.  On a store whose map is nil the same PUT panics
    before a reply is written. *)
Theorem HandleObject_PUT_then_GET_made (Parse : string → option Time)
    (now now' : Time) (key expires : string) (data : list byte)
    (g : Nilable.gomap) (m : Server.Counters) :
  key ≠ "" →
  expires = "" ∨ (∃ t, Parse expires = Some t ∧ (now' ≤ t)%Z) →
  (g = Nilable.NilMap →
     (Nilable.HandleObject Parse now
        (Server.object_request "PUT" key expires (Some data)) g m).1
     = Nilable.Panicked)
  ∧ (∀ s, g = Nilable.MadeMap s →
       ∃ s1,
         Nilable.HandleObject Parse now
           (Server.object_request "PUT" key expires (Some data)) g m
         = (Nilable.Answered
              {| Server.StatusCode := 200; Server.ContentType := None;
                 Server.Written := [] |},
            (Nilable.MadeMap s1,
             {| Server.put_objects_total := S (Server.put_objects_total m);
                Server.get_objects_total := Server.get_objects_total m |}))
         ∧ Nilable.HandleObject Parse now'
             (Server.object_request "GET" key "" None) (Nilable.MadeMap s1)
             {| Server.put_objects_total := S (Server.put_objects_total m);
                Server.get_objects_total := Server.get_objects_total m |}
           = (Nilable.Answered
                {| Server.StatusCode := 200;
                   Server.ContentType := Some "application/json";
                   Server.Written := data |},
              (Nilable.MadeMap s1,
               {| Server.put_objects_total := S (Server.put_objects_total m);
                  Server.get_objects_total :=
                    S (Server.get_objects_total m) |}))).
Proof.
  intros Hkey Hexp. split.
  - intros ->. unfold Nilable.HandleObject.
    rewrite ServerFacts.object_request_key.
    rewrite decide_False by done. simpl.
    unfold Nilable.putObjectHandler. simpl.
    destruct (decide (expires = "")) as [->|Hne]; [done|].
    destruct Hexp as [-> | (t & Ht & _)]; [done|]. by rewrite Ht.
  - intros s ->.
    destruct (ServerFacts.HandleObject_PUT_then_GET Parse now now' key
                expires data s m Hkey Hexp) as (s1 & Hput & Hget).
    exists s1. rewrite !Nilable_HandleObject_made.
    by rewrite Hput, Hget.
Qed.

Lemma HandleObject_PUT_then_GET_made_witness :
  let Parse := λ h : string, if decide (h = "T9") then Some 9%Z else None in
  let m := {| Server.put_objects_total := 0;
              Server.get_objects_total := 0 |} in
  ∃ s1,
    (Nilable.HandleObject Parse 5
       (Server.object_request "PUT" "k" "T9" (Some [x01]))
       (Nilable.MadeMap ∅) m).2.1 = Nilable.MadeMap s1
    ∧ (Nilable.HandleObject Parse 8
         (Server.object_request "GET" "k" "" None) (Nilable.MadeMap s1)
         {| Server.put_objects_total := 1;
            Server.get_objects_total := 0 |}).1
      = Nilable.Answered
          {| Server.StatusCode := 200;
             Server.ContentType := Some "application/json";
             Server.Written := [x01] |}.
Proof.
  intros Parse m.
  destruct (HandleObject_PUT_then_GET_made Parse 5 8 "k" "T9" [x01]
              (Nilable.MadeMap ∅) m) as [_ Hmade].
  - discriminate.
  - right. exists 9%Z. split; [reflexivity | lia].
  - destruct (Hmade ∅ eq_refl) as (s1 & Hput & Hget).
    exists s1. rewrite Hput. split; [reflexivity|].
    etrans; [exact (f_equal fst Hget)|]. reflexivity.
Defined.

(** Every PUT that names a key is counted, whatever becomes of it.  If
    its Expires header is not empty and does not parse, or its body cannot
    be read, it is answered 400 and the map is left as it was.  Otherwise
    it reaches [Put]: on a map that has been made it is stored, with the
    parsed expiry or none for an empty header, and answered 200; on the
    nil map the handler panics, no reply is written and the map stays
    nil. *)
Theorem HandleObject_PUT_outcome_nilable (Parse : string → option Time)
    (now : Time) (r : Server.Request) (g : Nilable.gomap)
    (m : Server.Counters) :
  Server.TrimPrefix (Server.Path r) "/objects/" ≠ "" →
  Server.Method r = "PUT" →
  (Nilable.HandleObject Parse now r g m).2.2
  = {| Server.put_objects_total := S (Server.put_objects_total m);
       Server.get_objects_total := Server.get_objects_total m |}
  ∧ (((Server.Body r = None
       ∨ (Server.Header r Server.ExpiresHeader ≠ ""
          ∧ Parse (Server.Header r Server.ExpiresHeader) = None))
      ∧ (∃ resp, (Nilable.HandleObject Parse now r g m).1
                 = Nilable.Answered resp
                 ∧ Server.StatusCode resp = Server.StatusBadRequest)
      ∧ (Nilable.HandleObject Parse now r g m).2.1 = g)
     ∨ (∃ data,
          Server.Body r = Some data
          ∧ (Server.Header r Server.ExpiresHeader = ""
             ∨ is_Some (Parse (Server.Header r Server.ExpiresHeader)))
          ∧ ((g = Nilable.NilMap
              ∧ (Nilable.HandleObject Parse now r g m).1 = Nilable.Panicked
              ∧ (Nilable.HandleObject Parse now r g m).2.1 = Nilable.NilMap)
             ∨ (∃ s, g = Nilable.MadeMap s
                  ∧ (Nilable.HandleObject Parse now r g m).1
                    = Nilable.Answered
                        {| Server.StatusCode := 200;
                           Server.ContentType := None;
                           Server.Written := [] |}
                  ∧ (Nilable.HandleObject Parse now r g m).2.1
                    = Nilable.MadeMap
                        (Put (Server.TrimPrefix (Server.Path r) "/objects/")
                           data
                           (if decide
                                 (Server.Header r Server.ExpiresHeader = "")
                            then None
                            else Parse
                                   (Server.Header r Server.ExpiresHeader))
                           s))))).
Proof.
  intros Hkey Hput. unfold Nilable.HandleObject.
  rewrite decide_False by done. rewrite Hput. simpl.
  unfold Nilable.putObjectHandler.
  destruct (decide (Server.Header r Server.ExpiresHeader = "")) as [He|He].
  - destruct (Server.Body r) as [data|]; simpl.
    + split; [by destruct g|]. right. exists data.
      split; [done|]. split; [auto|].
      destruct g as [|s]; simpl; [left; done | right; by exists s].
    + split; [done|]. left. split; [auto|]. split; [|done]. eauto.
  - destruct (Parse (Server.Header r Server.ExpiresHeader)) as [t|] eqn:Ht.
    + destruct (Server.Body r) as [data|]; simpl.
      * split; [by destruct g|]. right. exists data.
        split; [done|]. split; [eauto|].
        destruct g as [|s]; simpl; [left; done | right; by exists s].
      * split; [done|]. left. split; [auto|]. split; [|done]. eauto.
    + simpl. split; [done|]. left. split; [auto|]. split; [|done]. eauto.
Qed.

Lemma HandleObject_PUT_outcome_nilable_witness :
  let m := {| Server.put_objects_total := 0;
              Server.get_objects_total := 0 |} in
  (Nilable.HandleObject (λ _, None) 0
     (Server.object_request "PUT" "k" "" (Some [x02])) Nilable.NilMap m).2.2
  = {| Server.put_objects_total := 1; Server.get_objects_total := 0 |}.
Proof.
  intros m.
  destruct (HandleObject_PUT_outcome_nilable (λ _, None) 0
              (Server.object_request "PUT" "k" "" (Some [x02]))
              Nilable.NilMap m) as [Hcount _];
    [discriminate | reflexivity |].
  exact Hcount.
Defined.

(** * The encoding packages, round trip *)

Module EncodingFacts.





End EncodingFacts.



